(** * json_comparison: structure counting, tree diff and summary

    A shallow embedding of [src/json_comparison/json_comparison.py]:
    [parse_json_structure], [compare_json_structures] (with its inner
    [find_differences]) and [summarize_comparison], followed by the
    properties of the specification that concern them. *)

From stdpp Require Import gmap strings list sorting pretty.
From Stdlib Require Import ZArith Lia.

Local Open Scope Z_scope.

(** ** Documents

    The values [read_json_from_file] hands to the core: [ijson] yields
    [None], [bool], [int], [Decimal], [str], [list] and [dict].  A [Decimal]
    is kept as signed coefficient and exponent (value [m * 10^e]); a [dict]
    as its items in insertion order. *)

Unset Elimination Schemes.
Inductive json : Type :=
| JNull
| JBool (b : bool)
| JInt (n : Z)
| JDec (m e : Z)
| JStr (s : string)
| JArr (items : list json)
| JObj (fields : list (string * json)).
Set Elimination Schemes.

Section json_induction.
Variable P : json → Prop.
Hypothesis Hnull : P JNull.
Hypothesis Hbool : ∀ b, P (JBool b).
Hypothesis Hint : ∀ n, P (JInt n).
Hypothesis Hdec : ∀ m e, P (JDec m e).
Hypothesis Hstr : ∀ s, P (JStr s).
Hypothesis Harr : ∀ items, Forall P items → P (JArr items).
Hypothesis Hobj : ∀ fields, Forall (λ kv, P kv.2) fields → P (JObj fields).

Fixpoint json_nested_ind (d : json) : P d :=
  match d with
  | JNull => Hnull
  | JBool b => Hbool b
  | JInt n => Hint n
  | JDec m e => Hdec m e
  | JStr s => Hstr s
  | JArr items =>
      Harr items
        ((fix all (l : list json) : Forall P l :=
            match l with
            | [] => Forall_nil_2 P
            | x :: r => Forall_cons_2 P x r (json_nested_ind x) (all r)
            end) items)
  | JObj fields =>
      Hobj fields
        ((fix all (l : list (string * json)) : Forall (λ kv, P kv.2) l :=
            match l with
            | [] => Forall_nil_2 _
            | kv :: r => Forall_cons_2 (λ kv, P kv.2) kv r (json_nested_ind kv.2) (all r)
            end) fields)
  end.
End json_induction.

(** A Python [dict] holds each key once. *)
Fixpoint wf_json (d : json) : Prop :=
  match d with
  | JArr items => foldr (λ item rest, wf_json item ∧ rest) True items
  | JObj fields => NoDup fields.*1 ∧ foldr (λ kv rest, wf_json kv.2 ∧ rest) True fields
  | _ => True
  end.

(** [key in d] and [d[key]]. *)
Fixpoint dict_get {A} (key : string) (fields : list (string * A)) : option A :=
  match fields with
  | [] => None
  | (k, v) :: rest => if decide (k = key) then Some v else dict_get key rest
  end.

(** ** parse_json_structure *)

(** [levels[level] += 1] on a [defaultdict(int)]. *)
Definition bump (level : Z) (levels : gmap Z Z) : gmap Z Z :=
  <[level := default 0 (levels !! level) + 1]> levels.

(** The inner [traverse], threading the [levels] dictionary it updates. *)
Fixpoint traverse (node : json) (level : Z) (levels : gmap Z Z) : gmap Z Z :=
  match node with
  | JObj fields =>
      fold_left (λ acc kv, traverse kv.2 (level + 1) acc) fields (bump level levels)
  | JArr items =>
      fold_left (λ acc item, traverse item (level + 1) acc) items (bump level levels)
  | _ => bump level levels
  end.

(** Tuple order of [sorted(levels.items())]. *)
Definition item_le (a b : Z * Z) : Prop :=
  a.1 < b.1 ∨ (a.1 = b.1 ∧ a.2 ≤ b.2).

Global Instance item_le_dec : RelDecision item_le.
Proof. intros a b. unfold item_le. apply _. Defined.

Definition parse_json_structure (json_data : json) : list (Z * Z) :=
  merge_sort item_le (map_to_list (traverse json_data 1 ∅)).

(** ** compare_json_structures *)

(** Python's [==] on the values above.  [bool] is an [int] ([True == 1]),
    and [int] and [Decimal] compare by numeric value; lists compare
    element-wise, dicts by key set and per-key value; values of different
    kinds are unequal. *)
Definition num_of (d : json) : option (Z * Z) :=
  match d with
  | JBool b => Some (Z.b2z b, 0)
  | JInt n => Some (n, 0)
  | JDec m e => Some (m, e)
  | _ => None
  end.

Definition num_eqb (x y : Z * Z) : bool :=
  let e := Z.min x.2 y.2 in
  x.1 * 10 ^ (x.2 - e) =? y.1 * 10 ^ (y.2 - e).

Fixpoint py_eq (d1 d2 : json) {struct d1} : bool :=
  match d1 with
  | JNull => match d2 with JNull => true | _ => false end
  | JStr s => match d2 with JStr t => bool_decide (s = t) | _ => false end
  | JArr l1 =>
      match d2 with
      | JArr l2 =>
          (fix all (a b : list json) : bool :=
             match a, b with
             | [], [] => true
             | x :: a', y :: b' => py_eq x y && all a' b'
             | _, _ => false
             end) l1 l2
      | _ => false
      end
  | JObj f1 =>
      match d2 with
      | JObj f2 =>
          bool_decide (length f1 = length f2) &&
          forallb (λ kv, match dict_get kv.1 f2 with
                         | Some w => py_eq kv.2 w
                         | None => false
                         end) f1
      | _ => false
      end
  | _ =>
      match num_of d1, num_of d2 with
      | Some x, Some y => num_eqb x y
      | _, _ => false
      end
  end.

(** One assignment [detailed_differences[path] = {'body1': .., 'body2': ..}]. *)
Definition write : Type := string * (json * json).

Definition KEY_NOT_FOUND : json := JStr "Key not found".
Definition ELEMENT_NOT_FOUND : json := JStr "Element not found".

(** [f'{path}/{key}' if path else key] *)
Definition key_path (path key : string) : string :=
  if decide (path = "") then key else path +:+ "/" +:+ key.

(** [f'{path}[{index}]'] *)
Definition index_path (path : string) (index : nat) : string :=
  path +:+ "[" +:+ pretty index +:+ "]".

(** The keys of [set(d1.keys()).union(d2.keys())], before the set picks its
    iteration order. *)
Definition union_keys (f1 f2 : list (string * json)) : list string :=
  remove_dups (f1.*1 ++ f2.*1).

(** Apply the assignments to the dictionary, in program order: a later
    assignment to the same path replaces the earlier one. *)
Definition assign_all (ws : list write) (dd : gmap string (json * json))
  : gmap string (json * json) :=
  fold_left (λ acc w, <[w.1 := w.2]> acc) ws dd.

Section differ.
(** The order in which [for key in keys] visits a Python [set] of
    strings: it is fixed by the string hashes of the running process. *)
Variable set_iter : list string → list string.

(** The inner [find_differences], as the sequence of assignments to
    [detailed_differences] it performs, in order.  The recursion is on
    [d1]: [subs] pairs every [d1[key]] (every [d1[index]]) with the
    recursive call on it, and the loops below look the pair up where the
    source indexes [d1].  The last case of each loop is not reached: a key
    of the union is in one of the two dicts, and an index below
    [max(len1, len2)] is valid in one of the two lists. *)
Fixpoint find_differences (d1 d2 : json) (path : string) {struct d1} : list write :=
  match d1, d2 with
  | JObj f1, JObj f2 =>
      let subs := map (λ kv, (kv.1, (kv.2, find_differences kv.2))) f1 in
      key ← set_iter (union_keys f1 f2);
      let new_path := key_path path key in
      match dict_get key subs, dict_get key f2 with
      | Some (v1, recurse), Some v2 => recurse v2 new_path
      | Some (v1, _), None => [(new_path, (v1, KEY_NOT_FOUND))]
      | None, Some v2 => [(new_path, (KEY_NOT_FOUND, v2))]
      | None, None => []
      end
  | JArr l1, JArr l2 =>
      let subs := map (λ item, (item, find_differences item)) l1 in
      index ← seq 0 (length l1 `max` length l2);
      let new_path := index_path path index in
      match subs !! index, l2 !! index with
      | Some (v1, recurse), Some v2 => recurse v2 new_path
      | Some (v1, _), None => [(new_path, (v1, ELEMENT_NOT_FOUND))]
      | None, Some v2 => [(new_path, (ELEMENT_NOT_FOUND, v2))]
      | None, None => []
      end
  | _, _ => if py_eq d1 d2 then [] else [(path, (d1, d2))]
  end.

(** The body of [for key in keys], with the recursive call written as
    in the source. *)
Definition key_step (f1 f2 : list (string * json)) (path key : string)
  : list write :=
  let new_path := key_path path key in
  match dict_get key f1, dict_get key f2 with
  | Some v1, Some v2 => find_differences v1 v2 new_path
  | Some v1, None => [(new_path, (v1, KEY_NOT_FOUND))]
  | None, Some v2 => [(new_path, (KEY_NOT_FOUND, v2))]
  | None, None => []
  end.

(** The body of [for index in range(max(len1, len2))]. *)
Definition index_step (l1 l2 : list json) (path : string) (index : nat)
  : list write :=
  let new_path := index_path path index in
  match l1 !! index, l2 !! index with
  | Some v1, Some v2 => find_differences v1 v2 new_path
  | Some v1, None => [(new_path, (v1, ELEMENT_NOT_FOUND))]
  | None, Some v2 => [(new_path, (ELEMENT_NOT_FOUND, v2))]
  | None, None => []
  end.

Definition compare_json_structures (json_data1 json_data2 : json)
  : gmap string (json * json) :=
  assign_all (find_differences json_data1 json_data2 "") ∅.
End differ.

(** ** summarize_comparison *)

(** One dictionary of [summary["detailed_comparison"]]. *)
Record level_row : Type := LevelRow {
  level : Z;
  body1 : Z;
  body2 : Z;
  difference : Z
}.

Record summary : Type := Summary {
  total_nodes : Z * Z;
  detailed_comparison : list level_row;
  differences : gmap string (json * json)
}.

(** The exception [max] raises on an empty iterable. *)
Inductive py_error : Type := ValueError.

Definition py_max (xs : list Z) : py_error + Z :=
  match xs with
  | [] => inl ValueError
  | x :: rest => inr (fold_left Z.max rest x)
  end.

(** [sum(count for _, count in structure)] *)
Definition py_sum (xs : list Z) : Z := fold_left Z.add xs 0.

(** [next((count for l, count in structure if l == level), 0)] *)
Fixpoint first_count (structure : list (Z * Z)) (lvl : Z) : Z :=
  match structure with
  | [] => 0
  | (l, count) :: rest => if decide (l = lvl) then count else first_count rest lvl
  end.

Definition summarize_comparison (structure1 structure2 : list (Z * Z))
    (diffs : gmap string (json * json)) : py_error + summary :=
  let total_nodes1 := py_sum structure1.*2 in
  let total_nodes2 := py_sum structure2.*2 in
  match py_max structure1.*1 with
  | inl e => inl e
  | inr m1 =>
      match py_max structure2.*1 with
      | inl e => inl e
      | inr m2 =>
          let max_level := m1 `max` m2 in
          let rows :=
            fold_left
              (λ acc lvl,
                 let count1 := first_count structure1 lvl in
                 let count2 := first_count structure2 lvl in
                 acc ++ [LevelRow lvl count1 count2 (count1 - count2)])
              (seqZ 1 max_level) [] in
          inr (Summary (total_nodes1, total_nodes2) rows diffs)
      end
  end.

(** ** Notions the properties are stated with *)

(** Number of nodes of [d] lying [k] levels below its root. *)
Fixpoint nodes_at (d : json) (k : nat) {struct d} : Z :=
  match k with
  | O => 1
  | S k' =>
      match d with
      | JArr items => foldr (λ item rest, nodes_at item k' + rest) 0 items
      | JObj fields => foldr (λ kv rest, nodes_at kv.2 k' + rest) 0 fields
      | _ => 0
      end
  end.

(** What [traverse] leaves in [levels]: level [l] gains the number of nodes
    of [d] that lie [l - level] below its root, and levels that gain nothing
    are not touched. *)
Definition traverse_spec (d : json) : Prop :=
  ∀ lvl levels l,
    traverse d lvl levels !! l =
      if decide (lvl ≤ l ∧ 0 < nodes_at d (Z.to_nat (l - lvl)))
      then Some (default 0 (levels !! l) + nodes_at d (Z.to_nat (l - lvl)))
      else levels !! l.

(** [c] is the count a level sequence gives for level [l]: the count of an
    entry for [l], or 0 when the sequence has no entry for [l]. *)
Definition count_for (structure : list (Z * Z)) (l c : Z) : Prop :=
  (l, c) ∈ structure ∨ ((l ∉ structure.*1) ∧ c = 0).

(** [m] is the largest element of [xs]. *)
Definition is_maximum (m : Z) (xs : list Z) : Prop :=
  m ∈ xs ∧ ∀ x, x ∈ xs → x ≤ m.

(** [dict], [list] or anything else: what the two [isinstance] tests see. *)
Inductive kind : Type := KObj | KArr | KScalar.

Global Instance kind_eq_dec : EqDecision kind.
Proof. solve_decision. Defined.

Definition kind_of (d : json) : kind :=
  match d with
  | JObj _ => KObj
  | JArr _ => KArr
  | _ => KScalar
  end.

(** Object against array, container against scalar, or two scalars that
    Python's [!=] tells apart. *)
Definition mismatched (d1 d2 : json) : Prop :=
  kind_of d1 ≠ kind_of d2 ∨
  (kind_of d1 = KScalar ∧ kind_of d2 = KScalar ∧ py_eq d1 d2 = false).

(** Access paths into a document. *)
Inductive step : Type :=
| Key (k : string)
| Index (i : nat).

(** The StructuralPath reached from [path] by the steps: [/key] for an
    object step (the key alone while the path is still empty) and [[index]]
    for an array step. *)
Fixpoint structural_path (path : string) (steps : list step) : string :=
  match steps with
  | [] => path
  | Key k :: rest => structural_path (key_path path k) rest
  | Index i :: rest => structural_path (index_path path i) rest
  end.

(** [d1] and [d2] both have a node at the end of [steps], [v1] and [v2],
    and every node on the way is an object on both sides or an array on
    both sides. *)
Inductive node_pair : json → json → list step → json → json → Prop :=
| node_pair_here d1 d2 : node_pair d1 d2 [] d1 d2
| node_pair_key f1 f2 k c1 c2 steps v1 v2 :
    dict_get k f1 = Some c1 → dict_get k f2 = Some c2 →
    node_pair c1 c2 steps v1 v2 →
    node_pair (JObj f1) (JObj f2) (Key k :: steps) v1 v2
| node_pair_index l1 l2 i c1 c2 steps v1 v2 :
    l1 !! i = Some c1 → l2 !! i = Some c2 →
    node_pair c1 c2 steps v1 v2 →
    node_pair (JArr l1) (JArr l2) (Index i :: steps) v1 v2.

(** [d1] and [d2] are the same document except for one scalar leaf, at the
    end of [steps], holding [a] in [d1] and [b] in [d2]. *)
Inductive differ_at_leaf : json → json → list step → json → json → Prop :=
| differ_here a b :
    kind_of a = KScalar → kind_of b = KScalar → a ≠ b →
    differ_at_leaf a b [] a b
| differ_key before after k c1 c2 steps a b :
    differ_at_leaf c1 c2 steps a b →
    differ_at_leaf (JObj (before ++ (k, c1) :: after))
                   (JObj (before ++ (k, c2) :: after)) (Key k :: steps) a b
| differ_index before after c1 c2 steps a b :
    differ_at_leaf c1 c2 steps a b →
    differ_at_leaf (JArr (before ++ c1 :: after))
                   (JArr (before ++ c2 :: after)) (Index (length before) :: steps) a b.

(** A set iterates over exactly its elements, each once. *)
Definition visits_each_once (set_iter : list string → list string) : Prop :=
  ∀ keys, set_iter keys ≡ₚ keys.

(** The same document up to the order in which its objects list their
    keys: what Python's dict equality does not see. *)
Unset Elimination Schemes.
Inductive json_equiv : json → json → Prop :=
| json_equiv_scalar d : kind_of d = KScalar → json_equiv d d
| json_equiv_arr l l' : Forall2 json_equiv l l' → json_equiv (JArr l) (JArr l')
| json_equiv_obj f g f' :
    f ≡ₚ g →
    Forall2 (λ kv kv', kv.1 = kv'.1 ∧ json_equiv kv.2 kv'.2) g f' →
    json_equiv (JObj f) (JObj f').
Set Elimination Schemes.

(** Two assignments to the same path whose values agree up to key order,
    and two runs that make such assignments, in any order. *)
Definition write_equiv (w w' : write) : Prop :=
  w.1 = w'.1 ∧ json_equiv w.2.1 w'.2.1 ∧ json_equiv w.2.2 w'.2.2.

Definition writes_equiv (ws ws' : list write) : Prop :=
  ∃ m, ws ≡ₚ m ∧ Forall2 write_equiv m ws'.

Definition entry_equiv (e e' : json * json) : Prop :=
  json_equiv e.1 e'.1 ∧ json_equiv e.2 e'.2.

(** The points where two documents diverge: a pair of nodes at the same
    access path that are of different kinds or are scalars Python's [!=]
    tells apart; or a key (an index) that, of two objects (two arrays) at
    the same access path, only one has. *)
Inductive diff_point (d1 d2 : json) : list step → json → json → Prop :=
| diff_mismatch steps a b :
    node_pair d1 d2 steps a b → mismatched a b →
    diff_point d1 d2 steps a b
| diff_key_left pre f1 f2 k a :
    node_pair d1 d2 pre (JObj f1) (JObj f2) →
    dict_get k f1 = Some a → dict_get k f2 = None →
    diff_point d1 d2 (pre ++ [Key k]) a KEY_NOT_FOUND
| diff_key_right pre f1 f2 k b :
    node_pair d1 d2 pre (JObj f1) (JObj f2) →
    dict_get k f1 = None → dict_get k f2 = Some b →
    diff_point d1 d2 (pre ++ [Key k]) KEY_NOT_FOUND b
| diff_index_left pre (l1 l2 : list json) (i : nat) a :
    node_pair d1 d2 pre (JArr l1) (JArr l2) →
    l1 !! i = Some a → l2 !! i = None →
    diff_point d1 d2 (pre ++ [Index i]) a ELEMENT_NOT_FOUND
| diff_index_right pre (l1 l2 : list json) (i : nat) b :
    node_pair d1 d2 pre (JArr l1) (JArr l2) →
    l1 !! i = None → l2 !! i = Some b →
    diff_point d1 d2 (pre ++ [Index i]) ELEMENT_NOT_FOUND b.

(** A key (an index) that, of two objects (two arrays) reached by the same
    access path [pre], only the first has, with value [a]; and the same for
    the second, with value [b]. *)
Definition absent_key_in_second (d1 d2 : json) (steps : list step) (a : json)
  : Prop :=
  ∃ pre f1 f2 k,
    steps = pre ++ [Key k] ∧ node_pair d1 d2 pre (JObj f1) (JObj f2) ∧
    dict_get k f1 = Some a ∧ dict_get k f2 = None.

Definition absent_key_in_first (d1 d2 : json) (steps : list step) (b : json)
  : Prop :=
  ∃ pre f1 f2 k,
    steps = pre ++ [Key k] ∧ node_pair d1 d2 pre (JObj f1) (JObj f2) ∧
    dict_get k f1 = None ∧ dict_get k f2 = Some b.

Definition absent_index_in_second (d1 d2 : json) (steps : list step) (a : json)
  : Prop :=
  ∃ pre (l1 l2 : list json) (i : nat),
    steps = pre ++ [Index i] ∧ node_pair d1 d2 pre (JArr l1) (JArr l2) ∧
    l1 !! i = Some a ∧ l2 !! i = None.

Definition absent_index_in_first (d1 d2 : json) (steps : list step) (b : json)
  : Prop :=
  ∃ pre (l1 l2 : list json) (i : nat),
    steps = pre ++ [Index i] ∧ node_pair d1 d2 pre (JArr l1) (JArr l2) ∧
    l1 !! i = None ∧ l2 !! i = Some b.

(** Whether a document holds, as a value at any depth, one of the two
    strings the differ writes for a missing side. *)
Fixpoint holds_marker (d : json) : bool :=
  match d with
  | JStr s =>
      bool_decide (s = "Key not found") || bool_decide (s = "Element not found")
  | JArr items => existsb holds_marker items
  | JObj fields => existsb (λ kv, holds_marker kv.2) fields
  | _ => false
  end.

Definition marker_free (d : json) : Prop := holds_marker d = false.

(** An assignment with its two sides exchanged. *)
Definition swap_write (w : write) : write := (w.1, (w.2.2, w.2.1)).

(** Nesting depth of a document: 1 for a scalar or an empty container. *)
Fixpoint height (d : json) : nat :=
  match d with
  | JArr items => S (foldr (λ item rest, Nat.max (height item) rest) 0%nat items)
  | JObj fields => S (foldr (λ kv rest, Nat.max (height kv.2) rest) 0%nat fields)
  | _ => 1%nat
  end.

(** Number of nodes of a document: itself and the nodes of its children. *)
Fixpoint count_nodes (d : json) : Z :=
  match d with
  | JArr items => 1 + foldr (λ item rest, count_nodes item + rest) 0 items
  | JObj fields => 1 + foldr (λ kv rest, count_nodes kv.2 + rest) 0 fields
  | _ => 1
  end.

(** ** main, of compare_json_files.py

    [main] is modelled from the point where the two calls of
    [read_json_from_file] have returned: [json_data1] and [json_data2] are
    their results ([None], here [JNull], for a file that could not be
    read).  The local variables that hold readings of [time.time()] live in
    an environment, so that reading one that was never assigned raises
    [UnboundLocalError] as in Python; the log is the sequence of records
    handed to [logging].  [traverse] and [find_differences] recurse once per
    level of nesting, and the interpreter raises [RecursionError] when a
    document is nested deeper than its recursion limit allows. *)

(** Truth value of a document in [if json_data1 and json_data2]. *)
Definition py_truthy (d : json) : bool :=
  match d with
  | JNull => false
  | JBool b => b
  | JInt n => negb (n =? 0)
  | JDec m _ => negb (m =? 0)
  | JStr s => negb (bool_decide (s = ""))
  | JArr items => negb (bool_decide (items = []))
  | JObj fields => negb (bool_decide (fields = []))
  end.

(** Truth value of the summary in [if summary]: a dict with three keys. *)
Definition summary_truthy (s : summary) : bool := true.

(** Lines 37 to 46: the three stages run by [main] on two documents. *)
Definition main_summary (set_iter : list string → list string)
    (json_data1 json_data2 : json) : py_error + summary :=
  let structure1 := parse_json_structure json_data1 in
  let structure2 := parse_json_structure json_data2 in
  let diffs := compare_json_structures set_iter json_data1 json_data2 in
  summarize_comparison structure1 structure2 diffs.

Inductive py_exception : Type :=
| UnboundLocalError (name : string)
| RecursionError
| Raised (e : py_error).

Section main_model.
Variable set_iter : list string → list string.
(** Readings of the clock: [clock n] is what the [n]-th call of
    [time.time()] returns. *)
Variable time : Type.
Variable clock : nat → time.
(** The deepest nesting for which the interpreter's recursion limit still
    lets [traverse], called from [main] through [parse_json_structure],
    reach the innermost level.  [find_differences] is called at the same
    depth of the stack and descends no deeper than either document. *)
Variable recursion_limit : nat.

Definition traversal_fits (d : json) : bool :=
  bool_decide (height d ≤ recursion_limit)%nat.

(** Lines 37 to 46 with their outcome: [RecursionError] from the first
    traversal that does not fit, and otherwise what [main_summary] gives. *)
Definition main_stages (json_data1 json_data2 : json) : py_exception + summary :=
  if traversal_fits json_data1 && traversal_fits json_data2
  then match main_summary set_iter json_data1 json_data2 with
       | inr smry => inr smry
       | inl e => inl (Raised e)
       end
  else inl RecursionError.

(** A record handed to [logging]: an error, an info line, an info line
    [f"{label}{t_end - t_start:.2f} seconds"], and the lines that
    [print_comparison_summary] writes for a summary. *)
Inductive log_record : Type :=
| LogError (msg : string)
| LogInfo (msg : string)
| LogDuration (label : string) (t_end t_start : time)
| LogSummary (s : summary).

Record main_state : Type := MainState {
  locals : gmap string time;
  ticks : nat;
  logged : list log_record
}.

(** Statements of [main]: they change the state and may raise. *)
Definition stmt (A : Type) : Type := main_state → (py_exception + A) * main_state.

Definition stmt_ret {A} (a : A) : stmt A := λ st, (inr a, st).

Definition stmt_bind {A B} (m : stmt A) (k : A → stmt B) : stmt B :=
  λ st, match m st with
        | (inr a, st') => k a st'
        | (inl e, st') => (inl e, st')
        end.

(** [name = time.time()] *)
Definition assign_time (name : string) : stmt unit :=
  λ st, (inr tt, MainState (<[name := clock (ticks st)]> (locals st))
                           (S (ticks st)) (logged st)).

(** Reading a local variable. *)
Definition read_local (name : string) : stmt time :=
  λ st, match locals st !! name with
        | Some t => (inr t, st)
        | None => (inl (UnboundLocalError name), st)
        end.

Definition log (r : log_record) : stmt unit :=
  λ st, (inr tt, MainState (locals st) (ticks st) (logged st ++ [r])).

(** A call that may raise. *)
Definition call {A} (r : py_error + A) : stmt A :=
  λ st, match r with
        | inr a => (inr a, st)
        | inl e => (inl (Raised e), st)
        end.

(** Lines 37 and 38: the two calls of [parse_json_structure], which raise
    when a document is nested too deep for [traverse]. *)
Definition parse_stage (json_data1 json_data2 : json) : stmt unit :=
  λ st, if traversal_fits json_data1 && traversal_fits json_data2
        then (inr tt, st)
        else (inl RecursionError, st).

(** [logging.info(f"{label}{end - start:.2f} seconds")]: the left operand
    of the subtraction is read first. *)
Definition log_duration (label end_name start_name : string) : stmt unit :=
  stmt_bind (read_local end_name) (λ t_end,
  stmt_bind (read_local start_name) (λ t_start,
  log (LogDuration label t_end t_start))).

Definition seq_stmt (m : stmt unit) (k : stmt unit) : stmt unit :=
  stmt_bind m (λ _, k).

Definition main (json_data1 json_data2 : json) : stmt unit :=
  seq_stmt (assign_time "start_time") (
  seq_stmt (assign_time "read_start_time") (
  seq_stmt (assign_time "read_end_time") (
  seq_stmt
    (if py_truthy json_data1 && py_truthy json_data2 then
       seq_stmt (assign_time "parse_start_time") (
       seq_stmt (parse_stage json_data1 json_data2) (
       seq_stmt (assign_time "parse_end_time") (
       seq_stmt (assign_time "compare_start_time") (
       seq_stmt (assign_time "compare_end_time") (
       seq_stmt (assign_time "summarize_start_time") (
       stmt_bind (call (main_summary set_iter json_data1 json_data2)) (λ smry,
       seq_stmt (assign_time "summarize_end_time") (
       if summary_truthy smry
       then log (LogSummary smry)
       else log (LogError
         "Comparison could not be completed due to errors in the JSON structures.")
       ))))))))
     else log (LogError "One or both JSON files could not be read.")) (
  seq_stmt (assign_time "end_time") (
  seq_stmt (log (LogInfo "
Timing Details:")) (
  seq_stmt (log_duration "  Reading JSON files: " "read_end_time" "read_start_time") (
  seq_stmt (log_duration "  Parsing JSON structures: " "parse_end_time" "parse_start_time") (
  seq_stmt (log_duration "  Comparing JSON structures: " "compare_end_time" "compare_start_time") (
  seq_stmt (log_duration "  Summarizing comparison: " "summarize_end_time" "summarize_start_time") (
  log_duration "Total duration: " "end_time" "start_time")))))))))).

Definition run_main (json_data1 json_data2 : json)
  : (py_exception + unit) * main_state :=
  main json_data1 json_data2 (MainState ∅ 0 []).
End main_model.

(** ** Properties of parse_json_structure *)

Lemma nodes_at_nonneg d : ∀ k, 0 ≤ nodes_at d k.
Proof.
  induction d as [| | | | |items IH|fields IH] using json_nested_ind;
    intros [|k]; simpl; try lia.
  - induction IH as [|x r Hx _ IHr]; simpl; [lia|]. specialize (Hx k). lia.
  - induction IH as [|x r Hx _ IHr]; simpl; [lia|]. specialize (Hx k). lia.
Qed.

(** No node at some level means no node one level further down. *)
Lemma nodes_at_step d : ∀ k, nodes_at d k = 0 → nodes_at d (S k) = 0.
Proof.
  induction d as [| | | | |items IH|fields IH] using json_nested_ind;
    intros [|k]; simpl; try lia.
  - induction IH as [|x r Hx _ IHr]; simpl; [lia|]. intros H0.
    pose proof (nodes_at_nonneg x k).
    assert (0 ≤ foldr (λ item rest, nodes_at item k + rest) 0 r).
    { clear. induction r as [|y r']; simpl; [lia|].
      pose proof (nodes_at_nonneg y k). lia. }
    rewrite (Hx k) by lia. rewrite IHr by lia. lia.
  - induction IH as [|x r Hx _ IHr]; simpl; [lia|]. intros H0.
    pose proof (nodes_at_nonneg x.2 k).
    assert (0 ≤ foldr (λ kv rest, nodes_at kv.2 k + rest) 0 r).
    { clear. induction r as [|y r']; simpl; [lia|].
      pose proof (nodes_at_nonneg y.2 k). lia. }
    rewrite (Hx k) by lia. rewrite IHr by lia. lia.
Qed.

Lemma foldr_nodes_nonneg {A} (proj : A → json) k (xs : list A) :
  0 ≤ foldr (λ x rest, nodes_at (proj x) k + rest) 0 xs.
Proof.
  induction xs as [|x r IH]; simpl; [lia|].
  pose proof (nodes_at_nonneg (proj x) k). lia.
Qed.

Lemma fold_traverse_lookup {A} (proj : A → json) (xs : list A) lvl :
  Forall (λ x, traverse_spec (proj x)) xs →
  ∀ levels l,
    fold_left (λ acc x, traverse (proj x) (lvl + 1) acc) xs levels !! l =
      if decide (lvl + 1 ≤ l ∧
                 0 < foldr (λ x rest, nodes_at (proj x) (Z.to_nat (l - (lvl + 1))) + rest) 0 xs)
      then Some (default 0 (levels !! l) +
                 foldr (λ x rest, nodes_at (proj x) (Z.to_nat (l - (lvl + 1))) + rest) 0 xs)
      else levels !! l.
Proof.
  induction 1 as [|x r Hx _ IH]; intros levels l; simpl.
  - case_decide; [lia|done].
  - rewrite IH, Hx.
    pose proof (nodes_at_nonneg (proj x) (Z.to_nat (l - (lvl + 1)))).
    pose proof (foldr_nodes_nonneg proj (Z.to_nat (l - (lvl + 1))) r).
    repeat case_decide; simpl; try f_equal; try lia.
Qed.

Lemma bump_lookup lvl levels l :
  bump lvl levels !! l =
    if decide (lvl = l) then Some (default 0 (levels !! l) + 1) else levels !! l.
Proof.
  unfold bump. case_decide as E.
  - subst. by rewrite lookup_insert_eq.
  - by rewrite lookup_insert_ne.
Qed.

Lemma traverse_lookup d : traverse_spec d.
Proof.
  induction d as [| | | | |items IH|fields IH] using json_nested_ind;
    intros lvl levels l; simpl.
  1-5: rewrite bump_lookup;
       destruct (decide (lvl = l)) as [->|];
       [ rewrite Z.sub_diag; simpl; case_decide; [done|lia]
       | case_decide as E; [|done];
         destruct E as [? E]; destruct (Z.to_nat (l - lvl)) eqn:?; simpl in E; lia ].
  - rewrite (fold_traverse_lookup id items lvl IH), bump_lookup.
    destruct (decide (lvl = l)) as [->|].
    + rewrite Z.sub_diag; simpl. repeat case_decide; try lia; done.
    + destruct (decide (lvl ≤ l)) as [Hle|].
      * replace (Z.to_nat (l - lvl)) with (S (Z.to_nat (l - (lvl + 1)))) by lia.
        simpl. repeat case_decide; try lia; done.
      * repeat case_decide; try lia; done.
  - rewrite (fold_traverse_lookup snd fields lvl IH), bump_lookup.
    destruct (decide (lvl = l)) as [->|].
    + rewrite Z.sub_diag; simpl. repeat case_decide; try lia; done.
    + destruct (decide (lvl ≤ l)) as [Hle|].
      * replace (Z.to_nat (l - lvl)) with (S (Z.to_nat (l - (lvl + 1)))) by lia.
        simpl. repeat case_decide; try lia; done.
      * repeat case_decide; try lia; done.
Qed.

Lemma nodes_at_root d : nodes_at d 0 = 1.
Proof. by destruct d. Qed.

Lemma nodes_at_down d k k' :
  (k ≤ k')%nat → 0 < nodes_at d k' → 0 < nodes_at d k.
Proof.
  induction 1 as [|k' _ IH]; [done|]. intros Hpos. apply IH.
  pose proof (nodes_at_nonneg d k').
  destruct (decide (nodes_at d k' = 0)) as [E|]; [|lia].
  apply nodes_at_step in E. lia.
Qed.

Lemma parse_json_structure_elem d l c :
  (l, c) ∈ parse_json_structure d ↔
  1 ≤ l ∧ 0 < c ∧ c = nodes_at d (Z.to_nat (l - 1)).
Proof.
  unfold parse_json_structure.
  rewrite merge_sort_Permutation, elem_of_map_to_list, traverse_lookup.
  rewrite lookup_empty. simpl. case_decide as E.
  - split; [intros [= <-]; lia|]. by intros (_ & _ & ->).
  - split; [done|]. intros (? & ? & ->). lia.
Qed.

Lemma parse_json_structure_keys d l :
  l ∈ (parse_json_structure d).*1 ↔ 1 ≤ l ∧ 0 < nodes_at d (Z.to_nat (l - 1)).
Proof.
  rewrite list_elem_of_fmap. split.
  - intros ([l' c] & -> & H). apply parse_json_structure_elem in H. simpl. lia.
  - intros [H1 H2]. exists (l, nodes_at d (Z.to_nat (l - 1))). split; [done|].
    by apply parse_json_structure_elem.
Qed.

Global Instance item_le_trans : Transitive item_le.
Proof. intros [a1 a2] [b1 b2] [c1 c2]; unfold item_le; simpl. lia. Qed.

Global Instance item_le_total : Total item_le.
Proof. intros [a1 a2] [b1 b2]; unfold item_le; simpl. lia. Qed.

Lemma parse_json_structure_NoDup d : NoDup (parse_json_structure d).*1.
Proof.
  unfold parse_json_structure. rewrite merge_sort_Permutation.
  apply NoDup_fst_map_to_list.
Qed.

Lemma sorted_items_strict (xs : list (Z * Z)) :
  StronglySorted item_le xs → NoDup xs.*1 → StronglySorted Z.lt xs.*1.
Proof.
  induction 1 as [|a r Hr IH Ha]; simpl; intros Hnd; [constructor|].
  apply NoDup_cons in Hnd as [Hnotin Hnd].
  constructor; [by apply IH|].
  apply Forall_fmap, Forall_forall. intros y Hy. simpl.
  rewrite Forall_forall in Ha. destruct (Ha y Hy) as [?|[E _]]; [done|].
  destruct Hnotin. rewrite E. apply list_elem_of_fmap. by exists y.
Qed.

Lemma parse_json_structure_sorted d :
  StronglySorted Z.lt (parse_json_structure d).*1.
Proof.
  apply sorted_items_strict; [|apply parse_json_structure_NoDup].
  apply StronglySorted_merge_sort; apply _.
Qed.

(** A strictly increasing list of integers that starts no lower than [s]
    and is closed downwards to [s] is the range starting at [s]. *)
Lemma sorted_downclosed_seqZ (ks : list Z) : ∀ s,
  StronglySorted Z.lt ks →
  (∀ x, x ∈ ks → s ≤ x) →
  (∀ x y, x ∈ ks → s ≤ y ≤ x → y ∈ ks) →
  ks = seqZ s (Z.of_nat (length ks)).
Proof.
  induction ks as [|a r IH]; intros s Hs Hlow Hdown; [done|].
  apply StronglySorted_cons in Hs as [Ha Hr]. rewrite Forall_forall in Ha.
  assert (s ≤ a) by (apply Hlow; left).
  assert (a = s) as ->.
  { assert (s ∈ a :: r) as Hin by (apply (Hdown a); [left|lia]).
    apply elem_of_cons in Hin as [?|Hin]; [done|]. specialize (Ha _ Hin). lia. }
  simpl length. rewrite seqZ_cons by lia. f_equal.
  replace (Z.pred (Z.of_nat (S (length r)))) with (Z.of_nat (length r)) by lia.
  apply IH; [done| |].
  - intros x Hx. specialize (Ha _ Hx). lia.
  - intros x y Hx Hy.
    assert (y ∈ s :: r) as Hin by (apply (Hdown x); [by right|lia]).
    apply elem_of_cons in Hin as [?|Hin]; [lia|done].
Qed.

(** C5: for every document, [parse_json_structure] returns a non-empty
    list, in strictly ascending order of depth, whose depths are all at
    least 1 and whose counts are all positive, and in which depth 1 is
    listed with count 1 and no other count. *)
Theorem parse_json_structure_levels (d : json) :
  parse_json_structure d ≠ [] ∧
  StronglySorted Z.lt (parse_json_structure d).*1 ∧
  Forall (λ lc, 1 ≤ lc.1 ∧ 0 < lc.2) (parse_json_structure d) ∧
  (∀ c, (1, c) ∈ parse_json_structure d ↔ c = 1).
Proof.
  assert (∀ c, (1, c) ∈ parse_json_structure d ↔ c = 1) as Hroot.
  { intros c. rewrite parse_json_structure_elem. simpl.
    rewrite nodes_at_root. lia. }
  split; [|split; [|split]]; [| |  |done].
  - intros E. specialize (Hroot 1). rewrite E in Hroot.
    destruct Hroot as [_ Hroot]. specialize (Hroot eq_refl). by apply elem_of_nil in Hroot.
  - apply parse_json_structure_sorted.
  - apply Forall_forall. intros [l c] H.
    apply parse_json_structure_elem in H. simpl. lia.
Qed.

(** C9: the depths listed by [parse_json_structure] are exactly
    1, 2, ..., D for D the length of the list; in particular a document
    with a node counted at depth [depth + 1] has one counted at [depth]. *)
Theorem parse_json_structure_contiguous (d : json) :
  (parse_json_structure d).*1 =
    seqZ 1 (Z.of_nat (length (parse_json_structure d))) ∧
  (∀ depth, 1 ≤ depth →
     depth + 1 ∈ (parse_json_structure d).*1 → depth ∈ (parse_json_structure d).*1).
Proof.
  assert (∀ x y, x ∈ (parse_json_structure d).*1 → 1 ≤ y ≤ x →
                 y ∈ (parse_json_structure d).*1) as Hdown.
  { intros x y Hx Hy. apply parse_json_structure_keys in Hx as [_ Hx].
    apply parse_json_structure_keys. split; [lia|].
    apply (nodes_at_down d _ (Z.to_nat (x - 1))); [lia|done]. }
  split.
  - rewrite <-(length_fmap fst (parse_json_structure d)).
    apply sorted_downclosed_seqZ; [apply parse_json_structure_sorted| |done].
    intros x Hx. by apply parse_json_structure_keys in Hx as [? _].
  - intros depth Hd Hin. apply (Hdown _ _ Hin). lia.
Qed.

Lemma parse_json_structure_contiguous_witness :
  2 ∈ (parse_json_structure (JObj [("x", JArr [JInt 1; JNull])])).*1.
Proof.
  apply (parse_json_structure_contiguous (JObj [("x", JArr [JInt 1; JNull])])).
  - lia.
  - vm_compute. do 2 right. left.
Defined.

(** ** Properties of summarize_comparison *)

Lemma fold_left_add xs : ∀ a, fold_left Z.add xs a = a + foldr Z.add 0 xs.
Proof.
  induction xs as [|x r IH]; intros a; simpl; [lia|].
  rewrite IH. lia.
Qed.

Lemma py_sum_foldr xs : py_sum xs = foldr Z.add 0 xs.
Proof. unfold py_sum. by rewrite fold_left_add. Qed.

Lemma fold_max_spec rest : ∀ x,
  is_maximum (fold_left Z.max rest x) (x :: rest).
Proof.
  induction rest as [|y r IH]; intros x; simpl.
  - split; [left|]. intros z Hz. apply list_elem_of_singleton in Hz. lia.
  - destruct (IH (x `max` y)) as [Hin Hub]. split.
    + apply elem_of_cons in Hin as [E|Hin]; [|by do 2 right].
      rewrite E. destruct (Z.max_spec x y) as [[_ ->]|[_ ->]]; [right|]; left.
    + intros z Hz.
      assert (z ≤ x `max` y ∨ z ∈ r) as [?|?].
      { rewrite !elem_of_cons in Hz. destruct Hz as [->|[->|?]]; [left|left|right]; [lia..|done]. }
      * etrans; [done|]. apply Hub. left.
      * apply Hub. by right.
Qed.

Lemma py_max_inr xs : xs ≠ [] → ∃ m, py_max xs = inr m ∧ is_maximum m xs.
Proof.
  destruct xs as [|x rest]; [done|]. intros _. eexists. split; [done|].
  apply fold_max_spec.
Qed.

Lemma append_loop {A B} (f : A → B) (xs : list A) : ∀ acc,
  fold_left (λ acc x, acc ++ [f x]) xs acc = acc ++ map f xs.
Proof.
  induction xs as [|x r IH]; intros acc; simpl.
  - by rewrite app_nil_r.
  - by rewrite IH, <-app_assoc.
Qed.

Lemma first_count_spec structure l : count_for structure l (first_count structure l).
Proof.
  unfold count_for. induction structure as [|[l' c] r IH]; simpl.
  - right. split; [apply not_elem_of_nil|done].
  - case_decide as E; [subst; left; left|].
    destruct IH as [?|[? ?]]; [left; by right|right].
    split; [|done]. rewrite not_elem_of_cons. done.
Qed.

(** C6: with an empty level sequence on either side [summarize_comparison]
    raises ([ValueError], from [max] of an empty iterable) and returns no
    summary. *)
Theorem summarize_comparison_empty (structure1 structure2 : list (Z * Z))
    (diffs : gmap string (json * json)) :
  structure1 = [] ∨ structure2 = [] →
  summarize_comparison structure1 structure2 diffs = inl ValueError.
Proof.
  unfold summarize_comparison. intros [-> | ->]; simpl; [done|].
  by destruct (py_max structure1.*1) as [[]|].
Qed.

Lemma summarize_comparison_empty_witness :
  summarize_comparison [(1, 1); (2, 3)] [] ∅ = inl ValueError ∧
  summarize_comparison [] [(1, 1)] ∅ = inl ValueError.
Proof.
  split; apply summarize_comparison_empty; [by right | by left].
Defined.

(** C7: on non-empty level sequences [summarize_comparison] returns a
    summary; its totals are the sums of the two sequences' counts; its
    detailed comparison lists the levels 1, 2, ..., max_level in this order,
    one row each, where max_level is the largest depth of either sequence;
    each row holds the two sequences' counts for its level (0 for a sequence
    without that level) and their difference; the diff mapping is the one
    passed in. *)
Theorem summarize_comparison_rows (structure1 structure2 : list (Z * Z))
    (diffs : gmap string (json * json)) :
  structure1 ≠ [] → structure2 ≠ [] →
  ∃ smry max_level,
    summarize_comparison structure1 structure2 diffs = inr smry ∧
    is_maximum max_level (structure1.*1 ++ structure2.*1) ∧
    total_nodes smry = (foldr Z.add 0 structure1.*2, foldr Z.add 0 structure2.*2) ∧
    level <$> detailed_comparison smry = seqZ 1 max_level ∧
    Forall (λ row,
              count_for structure1 (level row) (body1 row) ∧
              count_for structure2 (level row) (body2 row) ∧
              difference row = body1 row - body2 row)
           (detailed_comparison smry) ∧
    differences smry = diffs.
Proof.
  intros H1 H2. unfold summarize_comparison.
  destruct (py_max_inr structure1.*1) as (m1 & -> & Hin1 & Hub1).
  { by destruct structure1. }
  destruct (py_max_inr structure2.*1) as (m2 & -> & Hin2 & Hub2).
  { by destruct structure2. }
  eexists _, (m1 `max` m2). split; [done|]. simpl.
  rewrite !py_sum_foldr, append_loop. simpl.
  split; [|split; [done|split; [|split; [|done]]]].
  - split.
    + rewrite elem_of_app.
      destruct (Z.max_spec m1 m2) as [[_ ->]|[_ ->]]; [by right|by left].
    + intros x. rewrite elem_of_app. intros [Hx|Hx].
      * specialize (Hub1 _ Hx). lia.
      * specialize (Hub2 _ Hx). lia.
  - rewrite <-list_fmap_compose. apply list_fmap_id.
  - apply Forall_fmap, Forall_forall. intros l _. simpl.
    split; [apply first_count_spec|split; [apply first_count_spec|done]].
Qed.

Lemma summarize_comparison_rows_witness :
  ∃ smry max_level,
    summarize_comparison [(1, 1); (2, 1); (3, 1)] [(1, 1); (2, 5)] ∅ = inr smry ∧
    is_maximum max_level ([(1, 1); (2, 1); (3, 1)].*1 ++ [(1, 1); (2, 5)].*1) ∧
    total_nodes smry =
      (foldr Z.add 0 [(1, 1); (2, 1); (3, 1)].*2, foldr Z.add 0 [(1, 1); (2, 5)].*2) ∧
    level <$> detailed_comparison smry = seqZ 1 max_level ∧
    Forall (λ row,
              count_for [(1, 1); (2, 1); (3, 1)] (level row) (body1 row) ∧
              count_for [(1, 1); (2, 5)] (level row) (body2 row) ∧
              difference row = body1 row - body2 row)
           (detailed_comparison smry) ∧
    differences smry = ∅.
Proof.
  apply summarize_comparison_rows; discriminate.
Defined.

(** ** Properties of compare_json_structures *)

Lemma dict_get_map {A B} (h : A → B) key (fields : list (string * A)) :
  dict_get key (map (λ kv, (kv.1, h kv.2)) fields) = h <$> dict_get key fields.
Proof.
  induction fields as [|[k v] r IH]; simpl; [done|]. by case_decide.
Qed.

Lemma dict_get_Some {A} key (fields : list (string * A)) v :
  dict_get key fields = Some v → (key, v) ∈ fields.
Proof.
  induction fields as [|[k w] r IH]; simpl; [done|].
  case_decide as E; [intros [= ->]; subst; left | intros; right; auto].
Qed.




Lemma dom_assign_all ws : ∀ dd p,
  p ∈ dom (assign_all ws dd) ↔ p ∈ dom dd ∨ p ∈ ws.*1.
Proof.
  unfold assign_all. induction ws as [|[q v] r IH]; intros dd p; simpl.
  - rewrite elem_of_nil. tauto.
  - rewrite IH, dom_insert, elem_of_union, elem_of_singleton, elem_of_cons. tauto.
Qed.

Lemma wf_json_arr items : wf_json (JArr items) ↔ Forall wf_json items.
Proof.
  simpl. induction items as [|x r IH]; simpl.
  - split; [constructor|done].
  - rewrite Forall_cons, IH. done.
Qed.

Lemma wf_json_obj fields :
  wf_json (JObj fields) ↔ NoDup fields.*1 ∧ Forall (λ kv, wf_json kv.2) fields.
Proof.
  simpl. apply and_iff_compat_l. induction fields as [|x r IH]; simpl.
  - split; [constructor|done].
  - rewrite Forall_cons, IH. done.
Qed.

Lemma dict_get_middle {A} k (before after : list (string * A)) v :
  k ∉ before.*1 → dict_get k (before ++ (k, v) :: after) = Some v.
Proof.
  induction before as [|[k' w] r IH]; simpl; intros Hk.
  - by case_decide.
  - apply not_elem_of_cons in Hk as [? ?]. case_decide; [congruence|auto].
Qed.

Lemma dict_get_middle_ne {A} key (before after : list (string * A)) k v w :
  key ≠ k →
  dict_get key (before ++ (k, v) :: after) = dict_get key (before ++ (k, w) :: after).
Proof.
  intros Hne. induction before as [|[k' u] r IH]; simpl.
  - case_decide; [congruence|done].
  - by case_decide.
Qed.

Lemma lookup_middle_ne {A} (i : nat) (before after : list A) x y :
  i ≠ length before →
  (before ++ x :: after) !! i = (before ++ y :: after) !! i.
Proof.
  intros Hne. destruct (decide (i < length before)%nat).
  - by rewrite !lookup_app_l.
  - rewrite !lookup_app_r by lia.
    destruct (i - length before)%nat eqn:E; [lia|done].
Qed.

Lemma assign_all_lookup ws : ∀ dd p v,
  NoDup ws.*1 →
  assign_all ws dd !! p = Some v ↔
  (p, v) ∈ ws ∨ ((p ∉ ws.*1) ∧ dd !! p = Some v).
Proof.
  unfold assign_all. induction ws as [|[q u] r IH]; intros dd p v Hnd; simpl.
  - rewrite elem_of_nil. split; [intros; right; split; [apply not_elem_of_nil|done]|].
    by intros [?|[_ ?]].
  - apply NoDup_cons in Hnd as [Hq Hnd]. rewrite (IH _ _ _ Hnd).
    rewrite elem_of_cons, not_elem_of_cons. simpl.
    destruct (decide (p = q)) as [->|Hne].
    + rewrite lookup_insert_eq. split.
      * intros [Hin|[_ [= ->]]]; [|by left; left].
        destruct Hq. apply list_elem_of_fmap. by exists (q, v).
      * intros [[[= ->]|Hin]|[[? _] _]]; [|by left|done].
        right. split; [done|]. done.
    + rewrite lookup_insert_ne by done. split.
      * intros [?|[? ?]]; [left; by right|by right].
      * intros [[[= -> ->]|?]|[[_ ?] ?]]; [done|by left|by right].
Qed.

Lemma assign_all_perm (ws ws' : list write) :
  NoDup ws.*1 → ws ≡ₚ ws' → assign_all ws ∅ = assign_all ws' ∅.
Proof.
  intros Hnd Hperm. apply map_eq. intros p. apply option_eq. intros v.
  rewrite !assign_all_lookup by (by rewrite <-?Hperm).
  by rewrite Hperm.
Qed.

Lemma bind_perm_ext {A B} (f g : A → list B) (l : list A) :
  (∀ x, x ∈ l → f x ≡ₚ g x) → l ≫= f ≡ₚ l ≫= g.
Proof.
  induction l as [|x r IH]; intros H; [done|].
  rewrite !bind_cons. f_equiv; [apply H; left|].
  apply IH. intros y Hy. apply H. by right.
Qed.

Section differ_facts.
Variable set_iter : list string → list string.

(** The two loops, with [d1[key]] and [d1[index]] read off [d1]. *)
Lemma find_differences_obj f1 f2 path :
  find_differences set_iter (JObj f1) (JObj f2) path =
    set_iter (union_keys f1 f2) ≫= key_step set_iter f1 f2 path.
Proof.
  simpl. apply list_bind_ext; [|done]. intros key. unfold key_step.
  rewrite (dict_get_map (λ v, (v, find_differences set_iter v))).
  by destruct (dict_get key f1).
Qed.

Lemma find_differences_arr l1 l2 path :
  find_differences set_iter (JArr l1) (JArr l2) path =
    seq 0 (length l1 `max` length l2) ≫= index_step set_iter l1 l2 path.
Proof.
  simpl. apply list_bind_ext; [|done]. intros index. unfold index_step.
  change (map ?f l1) with (f <$> l1). rewrite list_lookup_fmap.
  by destruct (l1 !! index).
Qed.

Lemma find_differences_other d1 d2 path :
  kind_of d1 ≠ kind_of d2 ∨ kind_of d1 = KScalar →
  find_differences set_iter d1 d2 path =
    if py_eq d1 d2 then [] else [(path, (d1, d2))].
Proof. intros [H|H]; destruct d1, d2; done. Qed.

Lemma num_eqb_refl x : num_eqb x x = true.
Proof. unfold num_eqb. apply Z.eqb_refl. Qed.

Lemma py_eq_scalar_refl d : kind_of d = KScalar → py_eq d d = true.
Proof.
  destruct d; simpl; try done; intros _; try apply num_eqb_refl.
  by apply bool_decide_eq_true.
Qed.

Lemma bind_nil {A B} (f : A → list B) (l : list A) :
  (∀ x, x ∈ l → f x = []) → l ≫= f = [].
Proof.
  induction l as [|x r IH]; intros H; [done|].
  rewrite bind_cons, (H x) by left. apply IH. intros y Hy. apply H. by right.
Qed.

(** A document compared with itself makes no assignment, whatever the
    path and the iteration order. *)
Lemma find_differences_same d : ∀ path, find_differences set_iter d d path = [].
Proof.
  induction d as [| | | | |items IH|fields IH] using json_nested_ind;
    intros path.
  1-5: rewrite find_differences_other by (by right);
       by rewrite py_eq_scalar_refl.
  - rewrite find_differences_arr. apply bind_nil. intros index _.
    unfold index_step. destruct (items !! index) as [v|] eqn:E; [|done].
    rewrite Forall_forall in IH. apply IH. by eapply list_elem_of_lookup_2.
  - rewrite find_differences_obj. apply bind_nil. intros key _.
    unfold key_step. destruct (dict_get key fields) as [v|] eqn:E; [|done].
    rewrite Forall_forall in IH. apply dict_get_Some in E. by apply (IH _ E).
Qed.

Lemma find_differences_mismatched d1 d2 path :
  mismatched d1 d2 →
  find_differences set_iter d1 d2 path = [(path, (d1, d2))].
Proof.
  intros [H|(H1 & H2 & H)].
  - rewrite find_differences_other by (by left).
    destruct d1, d2; done.
  - rewrite find_differences_other by (by right). by rewrite H.
Qed.


Hypothesis set_iter_once : visits_each_once set_iter.

(** The call made for a pair of nodes contributes its assignments to the
    run as one block. *)
Lemma node_pair_block d1 d2 steps v1 v2 :
  node_pair d1 d2 steps v1 v2 →
  ∀ path, ∃ before after,
    find_differences set_iter d1 d2 path =
      before ++ find_differences set_iter v1 v2 (structural_path path steps) ++ after.
Proof.
  induction 1 as [d1 d2|f1 f2 k c1 c2 steps v1 v2 H1 H2 _ IH
                 |l1 l2 i c1 c2 steps v1 v2 H1 H2 _ IH]; intros path.
  - exists [], []. by rewrite app_nil_r.
  - rewrite find_differences_obj.
    assert (k ∈ set_iter (union_keys f1 f2)) as Hk.
    { rewrite (set_iter_once _). apply elem_of_remove_dups, elem_of_app. left.
      apply dict_get_Some in H1. apply list_elem_of_fmap. by exists (k, c1). }
    apply list_elem_of_split in Hk as (ks1 & ks2 & ->).
    rewrite bind_app, bind_cons. unfold key_step at 2. rewrite H1, H2.
    destruct (IH (key_path path k)) as (b & a & ->). simpl.
    exists ((ks1 ≫= key_step set_iter f1 f2 path) ++ b),
           (a ++ (ks2 ≫= key_step set_iter f1 f2 path)).
    by rewrite <-!app_assoc.
  - rewrite find_differences_arr.
    assert (i ∈ seq 0 (length l1 `max` length l2)) as Hi.
    { apply elem_of_seq. apply lookup_lt_Some in H1. lia. }
    apply list_elem_of_split in Hi as (is1 & is2 & ->).
    rewrite bind_app, bind_cons. unfold index_step at 2. rewrite H1, H2.
    destruct (IH (index_path path i)) as (b & a & ->). simpl.
    exists ((is1 ≫= index_step set_iter l1 l2 path) ++ b),
           (a ++ (is2 ≫= index_step set_iter l1 l2 path)).
    by rewrite <-!app_assoc.
Qed.





Lemma bind_single {A B} `{EqDecision A} (f : A → list B) (l : list A) k :
  NoDup l → k ∈ l → (∀ x, x ∈ l → x ≠ k → f x = []) → l ≫= f = f k.
Proof.
  intros Hnd Hk Hnil. apply list_elem_of_split in Hk as (l1 & l2 & ->).
  apply NoDup_app in Hnd as (_ & Hl1 & [Hl2 _]%NoDup_cons).
  rewrite bind_app, bind_cons, !bind_nil, app_nil_r; [done| |].
  - intros x Hx. apply Hnil; [|by intros ->].
    apply elem_of_app. right. by right.
  - intros x Hx. apply Hnil; [apply elem_of_app; by left|].
    intros ->. apply (Hl1 k Hx). left.
Qed.

Lemma set_iter_NoDup f1 f2 : NoDup (set_iter (union_keys f1 f2)).
Proof. rewrite (set_iter_once _). apply NoDup_remove_dups. Qed.

Lemma set_iter_elem f1 f2 key :
  key ∈ set_iter (union_keys f1 f2) ↔ key ∈ f1.*1 ∨ key ∈ f2.*1.
Proof.
  rewrite (set_iter_once _). unfold union_keys.
  by rewrite elem_of_remove_dups, elem_of_app.
Qed.

(** The assignments made for a key, or an index, that only one side has. *)
Lemma key_only_left f1 f2 path k v :
  dict_get k f1 = Some v → dict_get k f2 = None →
  (key_path path k, (v, KEY_NOT_FOUND)) ∈
    find_differences set_iter (JObj f1) (JObj f2) path.
Proof.
  intros H1 H2. rewrite find_differences_obj.
  apply list_elem_of_bind. exists k. split.
  - unfold key_step. rewrite H1, H2. by apply list_elem_of_singleton.
  - apply set_iter_elem. left.
    apply dict_get_Some in H1. apply list_elem_of_fmap. by exists (k, v).
Qed.

Lemma key_only_right f1 f2 path k v :
  dict_get k f1 = None → dict_get k f2 = Some v →
  (key_path path k, (KEY_NOT_FOUND, v)) ∈
    find_differences set_iter (JObj f1) (JObj f2) path.
Proof.
  intros H1 H2. rewrite find_differences_obj.
  apply list_elem_of_bind. exists k. split.
  - unfold key_step. rewrite H1, H2. by apply list_elem_of_singleton.
  - apply set_iter_elem. right.
    apply dict_get_Some in H2. apply list_elem_of_fmap. by exists (k, v).
Qed.

Lemma index_only_left (l1 l2 : list json) path (i : nat) v :
  l1 !! i = Some v → l2 !! i = None →
  (index_path path i, (v, ELEMENT_NOT_FOUND)) ∈
    find_differences set_iter (JArr l1) (JArr l2) path.
Proof.
  intros H1 H2. rewrite find_differences_arr.
  apply list_elem_of_bind. exists i. split.
  - unfold index_step. rewrite H1, H2. by apply list_elem_of_singleton.
  - apply elem_of_seq. apply lookup_lt_Some in H1. lia.
Qed.

Lemma index_only_right (l1 l2 : list json) path (i : nat) v :
  l1 !! i = None → l2 !! i = Some v →
  (index_path path i, (ELEMENT_NOT_FOUND, v)) ∈
    find_differences set_iter (JArr l1) (JArr l2) path.
Proof.
  intros H1 H2. rewrite find_differences_arr.
  apply list_elem_of_bind. exists i. split.
  - unfold index_step. rewrite H1, H2. by apply list_elem_of_singleton.
  - apply elem_of_seq. apply lookup_lt_Some in H2. lia.
Qed.

Lemma write_in_dom d1 d2 p e :
  (p, e) ∈ find_differences set_iter d1 d2 "" →
  p ∈ dom (compare_json_structures set_iter d1 d2).
Proof.
  intros Hin. unfold compare_json_structures. apply dom_assign_all. right.
  apply list_elem_of_fmap. by exists (p, e).
Qed.

(** Two documents that are the same but for one scalar leaf, whose two
    values Python's [!=] tells apart: one assignment, at the leaf. *)
Lemma find_differences_leaf d1 d2 steps a b :
  differ_at_leaf d1 d2 steps a b →
  wf_json d1 → py_eq a b = false →
  ∀ path, find_differences set_iter d1 d2 path =
            [(structural_path path steps, (a, b))].
Proof.
  induction 1 as [a b Ha Hb Hne|before after k c1 c2 steps a b _ IH
                 |before after c1 c2 steps a b _ IH]; intros Hwf Hpy path.
  - rewrite find_differences_other by (by right). by rewrite Hpy.
  - apply wf_json_obj in Hwf as [Hnd Hwf].
    rewrite fmap_app, fmap_cons in Hnd.
    apply NoDup_app in Hnd as (_ & Hbefore & _). simpl in Hbefore.
    assert (k ∉ before.*1) as Hk by (intros Hk; apply (Hbefore k Hk); left).
    rewrite find_differences_obj.
    rewrite (bind_single _ _ k); [|apply set_iter_NoDup| |].
    + unfold key_step. rewrite !dict_get_middle by done. apply IH; [|done].
      rewrite Forall_app, Forall_cons in Hwf. by destruct Hwf as (_ & ? & _).
    + apply set_iter_elem. left. rewrite fmap_app, fmap_cons, elem_of_app.
      right. left.
    + intros key _ Hkey. unfold key_step.
      rewrite (dict_get_middle_ne key before after k c1 c2) by done.
      destruct (dict_get key (before ++ (k, c2) :: after)); [|done].
      apply find_differences_same.
  - apply wf_json_arr in Hwf.
    rewrite find_differences_arr.
    rewrite (bind_single _ _ (length before)); [|apply NoDup_seq| |].
    + unfold index_step. rewrite !list_lookup_middle by done. apply IH; [|done].
      rewrite Forall_app, Forall_cons in Hwf. by destruct Hwf as (_ & ? & _).
    + apply elem_of_seq. rewrite !length_app. simpl. lia.
    + intros index _ Hindex. unfold index_step.
      rewrite (lookup_middle_ne index before after c1 c2) by done.
      destruct ((before ++ c2 :: after) !! index); [|done].
      apply find_differences_same.
Qed.
End differ_facts.

Lemma json_equiv_kind d d' : json_equiv d d' → kind_of d = kind_of d'.
Proof. by destruct 1. Qed.

Lemma json_equiv_scalar_eq d d' :
  json_equiv d d' → kind_of d = KScalar → d' = d.
Proof. by destruct 1. Qed.

Lemma py_eq_equiv d1 d1' d2 d2' :
  json_equiv d1 d1' → json_equiv d2 d2' →
  kind_of d1 ≠ kind_of d2 ∨ kind_of d1 = KScalar →
  py_eq d1 d2 = py_eq d1' d2'.
Proof.
  intros H1 H2 Hk.
  pose proof (json_equiv_kind _ _ H1) as K1.
  pose proof (json_equiv_kind _ _ H2) as K2.
  destruct (decide (kind_of d1 = KScalar)) as [S1|N1].
  - rewrite (json_equiv_scalar_eq _ _ H1 S1).
    destruct (decide (kind_of d2 = KScalar)) as [S2|N2].
    + by rewrite (json_equiv_scalar_eq _ _ H2 S2).
    + destruct d1; try done; destruct d2, d2'; done.
  - destruct Hk as [Hk|?]; [|done].
    destruct d1, d1'; try done; destruct d2, d2'; done.
Qed.

Lemma dict_get_NoDup {A} key (fields : list (string * A)) v :
  NoDup fields.*1 → dict_get key fields = Some v ↔ (key, v) ∈ fields.
Proof.
  intros Hnd. split; [apply dict_get_Some|].
  induction fields as [|[k w] r IH]; simpl; [by intros ?%elem_of_nil|].
  apply NoDup_cons in Hnd as [Hk Hnd]. simpl in Hk.
  intros [[= -> ->]|Hin]%elem_of_cons; [by case_decide|].
  case_decide as E; [|by apply IH]. subst.
  destruct Hk. apply list_elem_of_fmap. by exists (key, v).
Qed.

Lemma dict_get_perm {A} key (f g : list (string * A)) :
  NoDup f.*1 → f ≡ₚ g → dict_get key f = dict_get key g.
Proof.
  intros Hnd Hperm. apply option_eq. intros v.
  rewrite !dict_get_NoDup by (by rewrite <-?Hperm). by rewrite Hperm.
Qed.

Lemma dict_get_Forall2 key (g f' : list (string * json)) :
  Forall2 (λ kv kv', kv.1 = kv'.1 ∧ json_equiv kv.2 kv'.2) g f' →
  option_Forall2 json_equiv (dict_get key g) (dict_get key f').
Proof.
  induction 1 as [|[k v] [k' v'] g f' [Hk Hv] _ IH]; simpl; [constructor|].
  simpl in Hk, Hv. subst k'. case_decide; [by constructor|done].
Qed.

Lemma wf_json_dict_get f key v :
  wf_json (JObj f) → dict_get key f = Some v → wf_json v.
Proof.
  intros [_ Hwf]%wf_json_obj Hget%dict_get_Some.
  rewrite Forall_forall in Hwf. apply (Hwf _ Hget).
Qed.

Lemma wf_json_lookup (l : list json) (i : nat) v :
  wf_json (JArr l) → l !! i = Some v → wf_json v.
Proof.
  intros Hwf%wf_json_arr Hget%list_elem_of_lookup_2.
  rewrite Forall_forall in Hwf. by apply Hwf.
Qed.

Lemma json_equiv_refl d : json_equiv d d.
Proof.
  induction d as [| | | | |items IH|fields IH] using json_nested_ind;
    try by apply json_equiv_scalar.
  - apply json_equiv_arr. induction IH; by constructor.
  - apply (json_equiv_obj _ fields); [done|]. induction IH; by constructor.
Qed.

Lemma json_equiv_obj_inv f d' :
  json_equiv (JObj f) d' →
  ∃ g f', d' = JObj f' ∧ f ≡ₚ g ∧
          Forall2 (λ kv kv', kv.1 = kv'.1 ∧ json_equiv kv.2 kv'.2) g f'.
Proof. inversion 1; subst; [done|by eauto]. Qed.

Lemma json_equiv_arr_inv l d' :
  json_equiv (JArr l) d' → ∃ l', d' = JArr l' ∧ Forall2 json_equiv l l'.
Proof. inversion 1; subst; [done|by eauto]. Qed.

Lemma dict_get_equiv key f f' :
  wf_json (JObj f) → json_equiv (JObj f) (JObj f') →
  option_Forall2 json_equiv (dict_get key f) (dict_get key f').
Proof.
  intros [Hnd _]%wf_json_obj (g & ? & [= <-] & P & F)%json_equiv_obj_inv.
  rewrite (dict_get_perm key f g Hnd P). by apply dict_get_Forall2.
Qed.

Lemma keys_equiv f f' : json_equiv (JObj f) (JObj f') → f.*1 ≡ₚ f'.*1.
Proof.
  intros (g & ? & [= <-] & P & F)%json_equiv_obj_inv. rewrite P. clear P.
  induction F as [|kv kv' g f' [E _] _ IH]; [done|].
  rewrite !fmap_cons, E. by f_equiv.
Qed.

Lemma union_keys_equiv f1 f1' f2 f2' :
  json_equiv (JObj f1) (JObj f1') → json_equiv (JObj f2) (JObj f2') →
  union_keys f1 f2 ≡ₚ union_keys f1' f2'.
Proof.
  intros E1%keys_equiv E2%keys_equiv. unfold union_keys.
  apply NoDup_Permutation; [apply NoDup_remove_dups..|].
  intros key. by rewrite !elem_of_remove_dups, E1, E2.
Qed.

Lemma writes_equiv_nil : writes_equiv [] [].
Proof. exists []. split; [done|constructor]. Qed.

Lemma writes_equiv_single p a a' b b' :
  json_equiv a a' → json_equiv b b' →
  writes_equiv [(p, (a, b))] [(p, (a', b'))].
Proof.
  intros Ha Hb. exists [(p, (a, b))]. split; [done|].
  by repeat constructor.
Qed.

Lemma writes_equiv_app ws1 ws1' ws2 ws2' :
  writes_equiv ws1 ws1' → writes_equiv ws2 ws2' →
  writes_equiv (ws1 ++ ws2) (ws1' ++ ws2').
Proof.
  intros (m1 & P1 & F1) (m2 & P2 & F2). exists (m1 ++ m2).
  split; [by rewrite P1, P2|by apply Forall2_app].
Qed.

Lemma writes_equiv_perm_l ws ws0 ws' :
  ws ≡ₚ ws0 → writes_equiv ws0 ws' → writes_equiv ws ws'.
Proof. intros P (m & P' & F). exists m. split; [by rewrite P|done]. Qed.

Lemma writes_equiv_bind {A} (f g : A → list write) (l l' : list A) :
  l ≡ₚ l' → (∀ x, x ∈ l' → writes_equiv (f x) (g x)) →
  writes_equiv (l ≫= f) (l' ≫= g).
Proof.
  intros P H. apply (writes_equiv_perm_l _ (l' ≫= f)); [by rewrite P|].
  clear l P. induction l' as [|x r IH]; [apply writes_equiv_nil|].
  rewrite !bind_cons. apply writes_equiv_app; [apply H; left|].
  apply IH. intros y Hy. apply H. by right.
Qed.

Lemma assign_all_equiv ws ws' :
  writes_equiv ws ws' → NoDup ws.*1 →
  ∀ p, option_Forall2 entry_equiv (assign_all ws ∅ !! p) (assign_all ws' ∅ !! p).
Proof.
  intros (m & P & F) Hnd p. rewrite (assign_all_perm ws m Hnd P).
  assert (NoDup m.*1) as Hm by (by rewrite <-P).
  assert (m.*1 = ws'.*1) as Hkeys.
  { clear -F. induction F as [|w w' m ws' [E _] _ IH]; [done|].
    rewrite !fmap_cons. by f_equal. }
  assert (NoDup ws'.*1) as Hws' by (by rewrite <-Hkeys).
  destruct (assign_all m ∅ !! p) as [e|] eqn:E.
  - apply assign_all_lookup in E as [Hin|[_ E]]; [|by rewrite lookup_empty in E|done].
    apply list_elem_of_lookup in Hin as [i Hi].
    destruct (Forall2_lookup_l _ _ _ _ _ F Hi) as ([p' e'] & Hi' & Hp & H1 & H2).
    simpl in Hp, H1, H2. subst p'.
    assert (assign_all ws' ∅ !! p = Some e') as ->.
    { apply assign_all_lookup; [done|]. left. by eapply list_elem_of_lookup_2. }
    by constructor.
  - assert (assign_all ws' ∅ !! p = None) as ->; [|constructor].
    apply not_elem_of_dom. intros [Hp|Hp]%dom_assign_all.
    + by rewrite dom_empty in Hp.
    + apply not_elem_of_dom in E. apply E, dom_assign_all. right. by rewrite Hkeys.
Qed.

Section two_runs.
(** Two runs of the program: the same code under two iteration orders
    of its key sets. *)
Variables iter1 iter2 : list string → list string.
Hypothesis iter1_once : visits_each_once iter1.
Hypothesis iter2_once : visits_each_once iter2.

(** Both runs make the same assignments, possibly in another order. *)
Lemma find_differences_perm d1 : ∀ d2 path,
  find_differences iter1 d1 d2 path ≡ₚ find_differences iter2 d1 d2 path.
Proof.
  induction d1 as [| | | | |items IH|fields IH] using json_nested_ind;
    intros d2 path.
  1-5: by rewrite !find_differences_other by (by right).
  - destruct (decide (kind_of d2 = KArr)) as [E|E].
    + destruct d2 as [| | | | |l2|]; try done.
      rewrite !find_differences_arr. apply bind_perm_ext. intros index _.
      unfold index_step.
      destruct (items !! index) as [v1|] eqn:E1, (l2 !! index) as [v2|]; try done.
      rewrite Forall_forall in IH. apply IH. by eapply list_elem_of_lookup_2.
    + rewrite !find_differences_other; [done|left; by destruct d2..].
  - destruct (decide (kind_of d2 = KObj)) as [E|E].
    + destruct d2 as [| | | | | |f2]; try done.
      rewrite !find_differences_obj.
      rewrite (iter1_once _), (iter2_once _).
      apply bind_perm_ext. intros key _. unfold key_step.
      destruct (dict_get key fields) as [v1|] eqn:E1, (dict_get key f2) as [v2|];
        try done.
      rewrite Forall_forall in IH. apply dict_get_Some in E1. apply (IH _ E1).
    + rewrite !find_differences_other; [done|left; by destruct d2..].
Qed.

Lemma find_differences_other_equiv d1 d1' d2 d2' path :
  json_equiv d1 d1' → json_equiv d2 d2' →
  kind_of d1 ≠ kind_of d2 ∨ kind_of d1 = KScalar →
  writes_equiv (find_differences iter1 d1 d2 path)
               (find_differences iter2 d1' d2' path).
Proof.
  intros E1 E2 Hk.
  rewrite (find_differences_other iter1 d1 d2) by done.
  rewrite (find_differences_other iter2 d1' d2').
  - rewrite <-(py_eq_equiv d1 d1' d2 d2') by done.
    destruct (py_eq d1 d2); [apply writes_equiv_nil|by apply writes_equiv_single].
  - by rewrite <-(json_equiv_kind _ _ E1), <-(json_equiv_kind _ _ E2).
Qed.

(** Reordering the keys inside the objects of either document, and
    changing the iteration order, changes the assignments only in their
    order and in the key order inside the recorded values. *)
Lemma find_differences_equiv d1 : ∀ d1' d2 d2' path,
  wf_json d1 → wf_json d2 → json_equiv d1 d1' → json_equiv d2 d2' →
  writes_equiv (find_differences iter1 d1 d2 path)
               (find_differences iter2 d1' d2' path).
Proof.
  induction d1 as [| | | | |l1 IH|f1 IH] using json_nested_ind;
    intros d1' d2 d2' path W1 W2 E1 E2.
  1-5: by apply find_differences_other_equiv; [..|right].
  - destruct (decide (kind_of d2 = KArr)) as [K|K];
      [|apply find_differences_other_equiv; [done..|left; by destruct d2]].
    destruct d2 as [| | | | |l2|]; try done.
    apply json_equiv_arr_inv in E1 as (l1' & -> & F1).
    apply json_equiv_arr_inv in E2 as (l2' & -> & F2).
    rewrite !find_differences_arr.
    rewrite <-(Forall2_length _ _ _ F1), <-(Forall2_length _ _ _ F2).
    apply writes_equiv_bind; [done|]. intros index _. unfold index_step.
    rewrite Forall2_lookup in F1. rewrite Forall2_lookup in F2.
    specialize (F1 index). specialize (F2 index).
    destruct (l1 !! index) as [v1|] eqn:G1, (l1' !! index) as [v1'|];
      inversion F1 as [? ? Hv1|]; subst;
      destruct (l2 !! index) as [v2|] eqn:G2, (l2' !! index) as [v2'|];
      inversion F2 as [? ? Hv2|]; subst.
    + rewrite Forall_forall in IH.
      apply IH; [by eapply list_elem_of_lookup_2| | |done..].
      * by apply (wf_json_lookup l1 index).
      * by apply (wf_json_lookup l2 index).
    + by apply writes_equiv_single; [|apply json_equiv_scalar].
    + by apply writes_equiv_single; [apply json_equiv_scalar|].
    + apply writes_equiv_nil.
  - destruct (decide (kind_of d2 = KObj)) as [K|K];
      [|apply find_differences_other_equiv; [done..|left; by destruct d2]].
    destruct d2 as [| | | | | |f2]; try done.
    destruct (json_equiv_obj_inv _ _ E1) as (g1 & f1' & -> & _).
    destruct (json_equiv_obj_inv _ _ E2) as (g2 & f2' & -> & _).
    rewrite !find_differences_obj.
    apply writes_equiv_bind.
    { rewrite (iter1_once _), (iter2_once _). by apply union_keys_equiv. }
    intros key _. unfold key_step.
    pose proof (dict_get_equiv key _ _ W1 E1) as F1.
    pose proof (dict_get_equiv key _ _ W2 E2) as F2.
    destruct (dict_get key f1) as [v1|] eqn:G1, (dict_get key f1') as [v1'|];
      inversion F1 as [? ? Hv1|]; subst;
      destruct (dict_get key f2) as [v2|] eqn:G2, (dict_get key f2') as [v2'|];
      inversion F2 as [? ? Hv2|]; subst.
    + rewrite Forall_forall in IH.
      apply (IH _ (dict_get_Some _ _ _ G1)); [| |done..].
      * by apply (wf_json_dict_get f1 key).
      * by apply (wf_json_dict_get f2 key).
    + by apply writes_equiv_single; [|apply json_equiv_scalar].
    + by apply writes_equiv_single; [apply json_equiv_scalar|].
    + apply writes_equiv_nil.
Qed.
End two_runs.

(** The scenarios of the specification, run on the model. *)
Example diff_key_only_left :
  compare_json_structures id (JObj [("a", JInt 1)]) (JObj []) =
    {[ "a" := (JInt 1, KEY_NOT_FOUND) ]}.
Proof. reflexivity. Qed.

Example diff_key_only_right :
  compare_json_structures id (JObj []) (JObj [("a", JInt 1)]) =
    {[ "a" := (KEY_NOT_FOUND, JInt 1) ]}.
Proof. reflexivity. Qed.

Example diff_shorter_array :
  compare_json_structures id
      (JArr [JInt 1; JInt 2; JInt 3]) (JArr [JInt 1; JInt 2]) =
    {[ "[2]" := (JInt 3, ELEMENT_NOT_FOUND) ]}.
Proof. reflexivity. Qed.

Example end_to_end :
  parse_json_structure (JObj [("x", JObj [("y", JInt 1)])]) = [(1, 1); (2, 1); (3, 1)] ∧
  compare_json_structures id
      (JObj [("x", JObj [("y", JInt 1)])]) (JObj [("x", JObj [("y", JInt 2)])]) =
    {[ "x/y" := (JInt 1, JInt 2) ]} ∧
  summarize_comparison [(1, 1); (2, 1); (3, 1)] [(1, 1); (2, 1); (3, 1)]
      {[ "x/y" := (JInt 1, JInt 2) ]} =
    inr (Summary (3, 3)
           [LevelRow 1 1 1 0; LevelRow 2 1 1 0; LevelRow 3 1 1 0]
           {[ "x/y" := (JInt 1, JInt 2) ]}).
Proof. by vm_compute. Qed.

(** C2: comparing a document with itself yields the empty mapping; a
    subtree compared with itself, at whatever path, makes no assignment. *)
Theorem compare_json_structures_same (set_iter : list string → list string)
    (d : json) :
  compare_json_structures set_iter d d = ∅ ∧
  ∀ path, find_differences set_iter d d path = [].
Proof.
  split; [|apply find_differences_same].
  unfold compare_json_structures. by rewrite find_differences_same.
Qed.



(** C3, as the code has it: for two documents that are the same except at
    one scalar leaf whose two values Python's [!=] tells apart, the result
    has exactly one entry, keyed by the StructuralPath of the leaf and
    holding the two leaf values. *)
Theorem compare_json_structures_one_leaf (set_iter : list string → list string)
    (d1 d2 : json) (steps : list step) (a b : json) :
  visits_each_once set_iter →
  wf_json d1 →
  differ_at_leaf d1 d2 steps a b →
  py_eq a b = false →
  compare_json_structures set_iter d1 d2 =
    {[ structural_path "" steps := (a, b) ]}.
Proof.
  intros Hiter Hwf Hdiff Hpy. unfold compare_json_structures.
  by rewrite (find_differences_leaf set_iter Hiter d1 d2 steps a b).
Qed.

Lemma compare_json_structures_one_leaf_witness :
  compare_json_structures id
      (JObj [("x", JObj [("y", JInt 1)])]) (JObj [("x", JObj [("y", JInt 2)])]) =
    {[ structural_path "" [Key "x"; Key "y"] := (JInt 1, JInt 2) ]}.
Proof.
  apply compare_json_structures_one_leaf.
  - intros keys. reflexivity.
  - simpl. repeat split; apply NoDup_singleton.
  - apply (differ_key [] [] "x"), (differ_key [] [] "y").
    by apply differ_here.
  - reflexivity.
Defined.

(** C3 as stated fails: [true] and [1] are different scalar leaves, yet
    Python's [True != 1] is false and nothing is recorded. *)
Lemma compare_json_structures_one_leaf_counterexample :
  visits_each_once id ∧
  wf_json (JObj [("a", JBool true)]) ∧
  differ_at_leaf (JObj [("a", JBool true)]) (JObj [("a", JInt 1)])
                 [Key "a"] (JBool true) (JInt 1) ∧
  compare_json_structures id (JObj [("a", JBool true)]) (JObj [("a", JInt 1)]) = ∅.
Proof.
  split; [by intros keys|]. split; [|split].
  - simpl. repeat split; apply NoDup_singleton.
  - apply (differ_key [] [] "a"). by apply differ_here.
  - reflexivity.
Qed.

(** C1 as stated fails: a second document that holds the string
    "Key not found" under a key yields the very mapping that a second
    document without the key yields. *)
Lemma missing_side_marker_counterexample :
  dict_get "a" [("a", JStr "Key not found")] = Some (JStr "Key not found") ∧
  dict_get "a" ([] : list (string * json)) = None ∧
  compare_json_structures id
      (JObj [("a", JInt 1)]) (JObj [("a", JStr "Key not found")]) =
    compare_json_structures id (JObj [("a", JInt 1)]) (JObj []) ∧
  compare_json_structures id (JObj [("a", JInt 1)]) (JObj []) !! "a" =
    Some (JInt 1, JStr "Key not found").
Proof. by vm_compute. Qed.

(** C8, as the code has it: when no two assignments of a run go to the same
    path, the mapping does not depend on the order in which the key sets are
    iterated, and reordering the keys inside the objects of either document
    leaves the same paths, each with values that agree up to that key
    order. *)
Theorem compare_json_structures_order_independent
    (iter1 iter2 : list string → list string) (d1 d2 : json) :
  visits_each_once iter1 → visits_each_once iter2 →
  NoDup (find_differences iter1 d1 d2 "").*1 →
  compare_json_structures iter1 d1 d2 = compare_json_structures iter2 d1 d2 ∧
  (∀ d1' d2',
     wf_json d1 → wf_json d2 → json_equiv d1 d1' → json_equiv d2 d2' →
     ∀ p, option_Forall2 entry_equiv
            (compare_json_structures iter1 d1 d2 !! p)
            (compare_json_structures iter2 d1' d2' !! p)).
Proof.
  intros H1 H2 Hnd. unfold compare_json_structures. split.
  - apply assign_all_perm; [done|]. by apply find_differences_perm.
  - intros d1' d2' W1 W2 E1 E2. apply assign_all_equiv; [|done].
    by apply find_differences_equiv.
Qed.

Lemma compare_json_structures_order_independent_witness :
  compare_json_structures id
      (JObj [("a", JInt 1); ("b", JArr [JInt 1; JInt 2])])
      (JObj [("b", JArr [JInt 1; JInt 3]); ("c", JNull)]) =
    compare_json_structures reverse
      (JObj [("a", JInt 1); ("b", JArr [JInt 1; JInt 2])])
      (JObj [("b", JArr [JInt 1; JInt 3]); ("c", JNull)]) ∧
  ∀ p, option_Forall2 entry_equiv
         (compare_json_structures id
            (JObj [("a", JInt 1); ("b", JArr [JInt 1; JInt 2])])
            (JObj [("b", JArr [JInt 1; JInt 3]); ("c", JNull)]) !! p)
         (compare_json_structures reverse
            (JObj [("b", JArr [JInt 1; JInt 2]); ("a", JInt 1)])
            (JObj [("b", JArr [JInt 1; JInt 3]); ("c", JNull)]) !! p).
Proof.
  destruct (compare_json_structures_order_independent id reverse
              (JObj [("a", JInt 1); ("b", JArr [JInt 1; JInt 2])])
              (JObj [("b", JArr [JInt 1; JInt 3]); ("c", JNull)]))
    as [Hsame Hreordered].
  - intros keys. reflexivity.
  - intros keys. apply reverse_Permutation.
  - apply (bool_decide_unpack _). vm_compute. exact I.
  - split; [done|]. apply Hreordered.
    + simpl. repeat split; apply (bool_decide_unpack _); vm_compute; exact I.
    + simpl. repeat split; apply (bool_decide_unpack _); vm_compute; exact I.
    + apply (json_equiv_obj _ [("b", JArr [JInt 1; JInt 2]); ("a", JInt 1)]).
      * apply perm_swap.
      * repeat (constructor; [split; [done|apply json_equiv_refl]|]). constructor.
    + apply json_equiv_refl.
Defined.

(** C8 as stated fails: the path [a/b] is written both for key [b] under
    key [a] and for the key [a/b] itself, and the assignment made last
    wins, so two iteration orders of the same key set give two mappings. *)
Lemma compare_json_structures_order_counterexample :
  visits_each_once id ∧ visits_each_once reverse ∧
  wf_json (JObj [("a", JObj [("b", JInt 1)]); ("a/b", JInt 2)]) ∧
  wf_json (JObj [("a", JObj [("b", JInt 3)]); ("a/b", JInt 4)]) ∧
  compare_json_structures id
      (JObj [("a", JObj [("b", JInt 1)]); ("a/b", JInt 2)])
      (JObj [("a", JObj [("b", JInt 3)]); ("a/b", JInt 4)]) !! "a/b" =
    Some (JInt 2, JInt 4) ∧
  compare_json_structures reverse
      (JObj [("a", JObj [("b", JInt 1)]); ("a/b", JInt 2)])
      (JObj [("a", JObj [("b", JInt 3)]); ("a/b", JInt 4)]) !! "a/b" =
    Some (JInt 1, JInt 3).
Proof.
  split; [by intros keys|]. split; [intros keys; apply reverse_Permutation|].
  split; [|split; [|split]].
  - simpl. repeat split; apply (bool_decide_unpack _); vm_compute; exact I.
  - simpl. repeat split; apply (bool_decide_unpack _); vm_compute; exact I.
  - by vm_compute.
  - by vm_compute.
Qed.

(** ** Further properties of parse_json_structure *)

Lemma foldr_nodes_pos {A} (proj : A → json) k (xs : list A) :
  Forall (λ x, ∀ k, 0 < nodes_at (proj x) k ↔ (k < height (proj x))%nat) xs →
  0 < foldr (λ x rest, nodes_at (proj x) k + rest) 0 xs ↔
  (k < foldr (λ x rest, Nat.max (height (proj x)) rest) 0%nat xs)%nat.
Proof.
  induction 1 as [|x r Hx _ IH]; simpl; [lia|].
  pose proof (nodes_at_nonneg (proj x) k).
  pose proof (foldr_nodes_nonneg proj k r).
  specialize (Hx k). lia.
Qed.

(** A document has a node at relative depth [k] exactly below its height. *)
Lemma nodes_at_pos_height d : ∀ k, 0 < nodes_at d k ↔ (k < height d)%nat.
Proof.
  induction d as [| | | | |items IH|fields IH] using json_nested_ind;
    intros [|k]; simpl; try lia.
  - rewrite (foldr_nodes_pos id k items IH). simpl. lia.
  - rewrite (foldr_nodes_pos snd k fields IH). simpl. lia.
Qed.

Lemma parse_json_structure_range d :
  (parse_json_structure d).*1 =
    seqZ 1 (Z.of_nat (length (parse_json_structure d))).
Proof.
  rewrite <-(length_fmap fst (parse_json_structure d)).
  apply sorted_downclosed_seqZ; [apply parse_json_structure_sorted| |].
  - intros x Hx. by apply parse_json_structure_keys in Hx as [? _].
  - intros x y Hx Hy. apply parse_json_structure_keys in Hx as [_ Hx].
    apply parse_json_structure_keys. split; [lia|].
    apply (nodes_at_down d _ (Z.to_nat (x - 1))); [lia|done].
Qed.

Lemma parse_json_structure_length d :
  length (parse_json_structure d) = height d.
Proof.
  pose proof (parse_json_structure_range d) as Hrange.
  assert (∀ l, 1 ≤ l < 1 + Z.of_nat (length (parse_json_structure d)) ↔
               1 ≤ l ≤ Z.of_nat (height d)) as Hl.
  { intros l. rewrite <-elem_of_seqZ, <-Hrange, parse_json_structure_keys.
    rewrite nodes_at_pos_height. lia. }
  pose proof (Hl (Z.of_nat (height d))).
  pose proof (Hl (Z.of_nat (length (parse_json_structure d)))).
  pose proof (Hl 1).
  assert (1 ≤ height d)%nat by (destruct d; simpl; lia).
  lia.
Qed.

Lemma seqZ_from_one (n : nat) :
  seqZ 1 (Z.of_nat n) = (λ k, Z.of_nat (S k)) <$> seq 0 n.
Proof.
  unfold seqZ. rewrite Nat2Z.id. apply list_fmap_ext. intros _ k _. lia.
Qed.

Lemma items_from_keys {A B} (g : A → B) (xs : list (A * B)) :
  Forall (λ x, x.2 = g x.1) xs → xs = (λ a, (a, g a)) <$> xs.*1.
Proof.
  induction 1 as [|[a b] r Hx _ IH]; [done|].
  simpl in Hx. subst b. rewrite !fmap_cons. simpl. by f_equal.
Qed.

Lemma parse_json_structure_as_map (d : json) :
  parse_json_structure d =
    (λ k, (Z.of_nat (S k), nodes_at d k)) <$> seq 0 (height d).
Proof.
  rewrite (items_from_keys (λ l, nodes_at d (Z.to_nat (l - 1)))
             (parse_json_structure d)).
  - rewrite parse_json_structure_range, parse_json_structure_length.
    rewrite seqZ_from_one, <-list_fmap_compose.
    apply list_fmap_ext. intros _ k _. simpl. do 2 f_equal. lia.
  - apply Forall_forall. intros [l c] H.
    apply parse_json_structure_elem in H. simpl. lia.
Qed.

(** X1: [parse_json_structure] returns, for k = 0, 1, ..., height - 1 in
    this order, the pair of depth [k + 1] and the number of nodes that lie
    [k] levels below the root; so its length is the nesting depth of the
    document. *)
Theorem parse_json_structure_closed_form (d : json) :
  parse_json_structure d =
    (λ k, (Z.of_nat (S k), nodes_at d k)) <$> seq 0 (height d) ∧
  length (parse_json_structure d) = height d.
Proof.
  split; [apply parse_json_structure_as_map|apply parse_json_structure_length].
Qed.

Lemma sum_fmap_add {A} (f g : A → Z) (l : list A) :
  foldr Z.add 0 ((λ k, f k + g k) <$> l) =
    foldr Z.add 0 (f <$> l) + foldr Z.add 0 (g <$> l).
Proof. induction l as [|x r IH]; csimpl; [done|]. rewrite IH. lia. Qed.

Lemma sum_fmap_zero {A} (l : list A) : foldr Z.add 0 ((λ _, 0) <$> l) = 0.
Proof. induction l as [|x r IH]; csimpl; [done|]. by rewrite IH. Qed.

Lemma sum_seq_S (f : nat → Z) (N : nat) :
  foldr Z.add 0 (f <$> seq 0 (S N)) =
    f 0%nat + foldr Z.add 0 ((λ k, f (S k)) <$> seq 0 N).
Proof.
  csimpl. f_equal. by rewrite <-fmap_S_seq, <-list_fmap_compose.
Qed.

Lemma height_child_le {A} (proj : A → json) (xs : list A) :
  Forall (λ x, (height (proj x) ≤
                foldr (λ x rest, Nat.max (height (proj x)) rest) 0%nat xs)%nat) xs.
Proof.
  induction xs as [|x r IH]; simpl; constructor; [lia|].
  eapply Forall_impl; [exact IH|]. simpl. intros y Hy. lia.
Qed.

Lemma sum_children {A} (proj : A → json) (xs : list A) (N : nat) :
  Forall (λ x, ∀ N, (height (proj x) ≤ N)%nat →
                    foldr Z.add 0 (nodes_at (proj x) <$> seq 0 N) =
                      count_nodes (proj x)) xs →
  Forall (λ x, (height (proj x) ≤ N)%nat) xs →
  foldr Z.add 0
    ((λ k, foldr (λ x rest, nodes_at (proj x) k + rest) 0 xs) <$> seq 0 N) =
    foldr (λ x rest, count_nodes (proj x) + rest) 0 xs.
Proof.
  induction 1 as [|x r Hx _ IH]; intros Hle; simpl.
  - apply sum_fmap_zero.
  - apply Forall_cons in Hle as [Hxle Hle].
    rewrite (sum_fmap_add (nodes_at (proj x))
               (λ k, foldr (λ x rest, nodes_at (proj x) k + rest) 0 r)).
    by rewrite (Hx N Hxle), (IH Hle).
Qed.

(** Summed over the levels up to the height, the per-level counts give the
    number of nodes. *)
Lemma sum_nodes_at d : ∀ N,
  (height d ≤ N)%nat →
  foldr Z.add 0 (nodes_at d <$> seq 0 N) = count_nodes d.
Proof.
  induction d as [| | | | |items IH|fields IH] using json_nested_ind;
    intros [|N] HN; simpl in HN; try lia; rewrite sum_seq_S.
  1-5: change (1 + foldr Z.add 0 ((λ _, 0) <$> seq 0 N) = 1);
       by rewrite sum_fmap_zero.
  - change (1 + foldr Z.add 0
                  ((λ k, foldr (λ x rest, nodes_at (id x) k + rest) 0 items)
                     <$> seq 0 N) =
            1 + foldr (λ x rest, count_nodes (id x) + rest) 0 items).
    f_equal. apply (sum_children id items N IH).
    eapply Forall_impl; [apply (height_child_le id items)|]. simpl. intros x Hx. lia.
  - change (1 + foldr Z.add 0
                  ((λ k, foldr (λ x rest, nodes_at x.2 k + rest) 0 fields)
                     <$> seq 0 N) =
            1 + foldr (λ x rest, count_nodes x.2 + rest) 0 fields).
    f_equal. apply (sum_children snd fields N IH).
    eapply Forall_impl; [apply (height_child_le snd fields)|]. simpl. intros x Hx. lia.
Qed.

(** X2: the counts returned by [parse_json_structure] add up to the number
    of nodes of the document. *)
Theorem parse_json_structure_total (d : json) :
  py_sum (parse_json_structure d).*2 = count_nodes d.
Proof.
  rewrite py_sum_foldr, parse_json_structure_as_map, <-list_fmap_compose.
  by apply sum_nodes_at.
Qed.

Lemma nodes_at_equiv d : ∀ d' k, json_equiv d d' → nodes_at d k = nodes_at d' k.
Proof.
  induction d as [| | | | |items IH|fields IH] using json_nested_ind;
    intros d' k E.
  1-5: by rewrite (json_equiv_scalar_eq _ _ E).
  - apply json_equiv_arr_inv in E as (items' & -> & F).
    destruct k as [|k]; [done|]. simpl.
    induction F as [|x x' r r' Hx _ IHr]; [done|].
    apply Forall_cons in IH as [IHx IH]. simpl.
    by rewrite (IHx x' k Hx), (IHr IH).
  - apply json_equiv_obj_inv in E as (g & fields' & -> & P & F).
    destruct k as [|k]; [done|]. simpl.
    rewrite (foldr_permutation (=) (λ kv rest, nodes_at kv.2 k + rest) 0 fields g);
      [| |done].
    + rewrite P in IH. clear P.
      induction F as [|x x' r r' [_ Hx] _ IHr]; [done|].
      apply Forall_cons in IH as [IHx IH]. simpl.
      by rewrite (IHx x'.2 k Hx), (IHr IH).
    + intros j1 a1 j2 a2 b _ _ _. lia.
Qed.

Lemma height_equiv d d' : json_equiv d d' → height d = height d'.
Proof.
  intros E.
  pose proof (nodes_at_pos_height d (height d')) as H1.
  pose proof (nodes_at_pos_height d' (height d')) as H2.
  pose proof (nodes_at_pos_height d (height d)) as H3.
  pose proof (nodes_at_pos_height d' (height d)) as H4.
  rewrite (nodes_at_equiv d d' _ E) in H1.
  rewrite (nodes_at_equiv d d' _ E) in H3. lia.
Qed.

(** X3: the level counts do not depend on the order in which objects list
    their keys. *)
Theorem parse_json_structure_key_order (d d' : json) :
  json_equiv d d' → parse_json_structure d = parse_json_structure d'.
Proof.
  intros E. rewrite !parse_json_structure_as_map, (height_equiv d d' E).
  apply list_fmap_ext. intros _ k _. by rewrite (nodes_at_equiv d d' k E).
Qed.

Lemma parse_json_structure_key_order_witness :
  parse_json_structure (JObj [("a", JInt 1); ("b", JArr [JNull])]) =
    parse_json_structure (JObj [("b", JArr [JNull]); ("a", JInt 1)]).
Proof.
  apply parse_json_structure_key_order.
  apply (json_equiv_obj _ [("b", JArr [JNull]); ("a", JInt 1)]).
  - apply perm_swap.
  - repeat (constructor; [split; [done|apply json_equiv_refl]|]). constructor.
Defined.

(** ** Further properties of compare_json_structures *)

Lemma assign_all_empty_iff ws : assign_all ws ∅ = ∅ ↔ ws = [].
Proof.
  split; [|by intros ->]. destruct ws as [|w r]; [done|]. intros H.
  assert (w.1 ∈ dom (assign_all (w :: r) ∅)) as Hin.
  { apply dom_assign_all. right. rewrite fmap_cons. left. }
  rewrite H, dom_empty in Hin. by apply elem_of_empty in Hin.
Qed.

Lemma bind_nil_iff {A B} (f : A → list B) (l : list A) :
  l ≫= f = [] ↔ ∀ x, x ∈ l → f x = [].
Proof.
  split; [|apply bind_nil]. induction l as [|x r IH]; intros H y Hy.
  - by apply elem_of_nil in Hy.
  - rewrite bind_cons in H. apply app_eq_nil in H as [Hx Hr].
    apply elem_of_cons in Hy as [->|Hy]; [done|by apply IH].
Qed.

Lemma py_eq_arr l1 l2 :
  py_eq (JArr l1) (JArr l2) = true ↔ Forall2 (λ x y, py_eq x y = true) l1 l2.
Proof.
  simpl. revert l2. induction l1 as [|x r IH]; intros [|y r']; simpl.
  - split; [constructor|done].
  - split; [done|inversion 1].
  - split; [done|inversion 1].
  - rewrite andb_true_iff, IH. split.
    + intros [? ?]. by constructor.
    + inversion 1; by subst.
Qed.

Lemma py_eq_obj f1 f2 :
  py_eq (JObj f1) (JObj f2) = true ↔
  length f1 = length f2 ∧
  Forall (λ kv, ∃ w, dict_get kv.1 f2 = Some w ∧ py_eq kv.2 w = true) f1.
Proof.
  simpl. rewrite andb_true_iff, bool_decide_eq_true. apply and_iff_compat_l.
  induction f1 as [|kv r IH]; simpl.
  - split; [constructor|done].
  - rewrite andb_true_iff, IH, Forall_cons. apply and_iff_compat_r.
    destruct (dict_get kv.1 f2) as [w|].
    + split; [by exists w|by intros (? & [= <-] & ?)].
    + split; [done|by intros (? & ? & _)].
Qed.

Section differ_more.
Variable set_iter : list string → list string.
Hypothesis set_iter_once : visits_each_once set_iter.

(** No assignment is made exactly when Python's [==] holds. *)
Lemma find_differences_nil_iff d1 : ∀ d2 path,
  wf_json d1 → wf_json d2 →
  find_differences set_iter d1 d2 path = [] ↔ py_eq d1 d2 = true.
Proof.
  assert (∀ d1 d2 path,
            kind_of d1 ≠ kind_of d2 ∨ kind_of d1 = KScalar →
            find_differences set_iter d1 d2 path = [] ↔ py_eq d1 d2 = true)
    as Hother.
  { intros e1 e2 path Hk. rewrite find_differences_other by done.
    by destruct (py_eq e1 e2). }
  induction d1 as [| | | | |l1 IH|f1 IH] using json_nested_ind;
    intros d2 path W1 W2.
  1-5: by apply Hother; right.
  - destruct (decide (kind_of d2 = KArr)) as [K|K];
      [|apply Hother; left; by destruct d2].
    destruct d2 as [| | | | |l2|]; try done.
    rewrite find_differences_arr, bind_nil_iff, py_eq_arr.
    rewrite Forall_forall in IH. split.
    + intros H. apply Forall2_same_length_lookup_2.
      * destruct (decide (length l1 = length l2)) as [|Hne]; [done|].
        assert (length l1 `min` length l2 ∈ seq 0 (length l1 `max` length l2))%nat
          as Hin by (apply elem_of_seq; lia).
        specialize (H _ Hin). unfold index_step in H.
        destruct (l1 !! (length l1 `min` length l2)%nat) as [v1|] eqn:E1,
                 (l2 !! (length l1 `min` length l2)%nat) as [v2|] eqn:E2;
          try done.
        -- apply lookup_lt_Some in E1. apply lookup_lt_Some in E2. lia.
        -- apply lookup_ge_None in E1. apply lookup_ge_None in E2. lia.
      * intros i x y E1 E2.
        assert (i ∈ seq 0 (length l1 `max` length l2))%nat as Hin.
        { apply elem_of_seq. apply lookup_lt_Some in E1. lia. }
        specialize (H _ Hin). unfold index_step in H. rewrite E1, E2 in H.
        apply (IH x) in H; [done|by eapply list_elem_of_lookup_2|..].
        -- by apply (wf_json_lookup l1 i).
        -- by apply (wf_json_lookup l2 i).
    + intros F index _. unfold index_step.
      rewrite Forall2_lookup in F. specialize (F index).
      destruct (l1 !! index) as [v1|] eqn:E1, (l2 !! index) as [v2|] eqn:E2;
        inversion F; subst; [|done].
      apply IH; [by eapply list_elem_of_lookup_2| | |done].
      * by apply (wf_json_lookup l1 index).
      * by apply (wf_json_lookup l2 index).
  - destruct (decide (kind_of d2 = KObj)) as [K|K];
      [|apply Hother; left; by destruct d2].
    destruct d2 as [| | | | | |f2]; try done.
    rewrite find_differences_obj, bind_nil_iff, py_eq_obj.
    rewrite Forall_forall in IH.
    pose proof W1 as [Hnd1 _]%wf_json_obj.
    pose proof W2 as [Hnd2 _]%wf_json_obj.
    assert (∀ key v1 v2, dict_get key f1 = Some v1 → dict_get key f2 = Some v2 →
              find_differences set_iter v1 v2 (key_path path key) = [] ↔
              py_eq v1 v2 = true) as Hrec.
    { intros key v1 v2 E1 E2.
      apply (IH _ (dict_get_Some _ _ _ E1)).
      - by apply (wf_json_dict_get f1 key).
      - by apply (wf_json_dict_get f2 key). }
    split.
    + intros H.
      assert (∀ key, key ∈ f1.*1 ∨ key ∈ f2.*1 →
                ∃ v1 v2, dict_get key f1 = Some v1 ∧ dict_get key f2 = Some v2 ∧
                         py_eq v1 v2 = true) as Hboth.
      { intros key Hkey. apply (set_iter_elem set_iter set_iter_once) in Hkey.
        specialize (H _ Hkey). unfold key_step in H.
        destruct (dict_get key f1) as [v1|] eqn:E1,
                 (dict_get key f2) as [v2|] eqn:E2; try done.
        - exists v1, v2. split_and!; [done..|]. by apply (Hrec key).
        - apply (set_iter_elem set_iter set_iter_once) in Hkey as [Hk|Hk];
            apply list_elem_of_fmap in Hk as ([k v] & -> & Hin).
          + apply (dict_get_NoDup _ _ _ Hnd1) in Hin. simpl in *. congruence.
          + apply (dict_get_NoDup _ _ _ Hnd2) in Hin. simpl in *. congruence. }
      split.
      * rewrite <-(length_fmap fst f1), <-(length_fmap fst f2).
        apply Permutation_length, NoDup_Permutation; [done..|].
        intros key. split; intros Hk.
        -- destruct (Hboth key) as (_ & v2 & _ & E2 & _); [by left|].
           apply dict_get_Some in E2. apply list_elem_of_fmap. by exists (key, v2).
        -- destruct (Hboth key) as (v1 & _ & E1 & _ & _); [by right|].
           apply dict_get_Some in E1. apply list_elem_of_fmap. by exists (key, v1).
      * apply Forall_forall. intros [k v] Hin.
        destruct (Hboth k) as (v1 & v2 & E1 & E2 & Hpy).
        { left. apply list_elem_of_fmap. by exists (k, v). }
        apply (dict_get_NoDup _ _ _ Hnd1) in Hin. simpl.
        exists v2. split; [done|]. congruence.
    + intros [Hlen F] key Hkey. rewrite Forall_forall in F.
      assert (∀ k, k ∈ f1.*1 → k ∈ f2.*1) as Hsub.
      { intros k ([k' v] & -> & Hin)%list_elem_of_fmap.
        destruct (F _ Hin) as (w & E2 & _). simpl in E2.
        apply dict_get_Some in E2. apply list_elem_of_fmap. by exists (k', w). }
      assert (f1.*1 ≡ₚ f2.*1) as P.
      { apply submseteq_length_Permutation; [by apply NoDup_submseteq|].
        rewrite !length_fmap. lia. }
      apply (set_iter_elem set_iter set_iter_once) in Hkey.
      assert (key ∈ f1.*1) as Hk by (destruct Hkey; [done|by rewrite P]).
      apply list_elem_of_fmap in Hk as ([k v] & -> & Hin).
      destruct (F _ Hin) as (w & E2 & Hpy). simpl in E2, Hpy.
      apply (dict_get_NoDup _ _ _ Hnd1) in Hin.
      unfold key_step. simpl. rewrite Hin, E2. by apply (Hrec k).
Qed.
End differ_more.

(** X4: for two documents with unique keys, the result is the empty mapping
    exactly when Python's [==] holds between them. *)
Theorem compare_json_structures_empty_iff (set_iter : list string → list string)
    (d1 d2 : json) :
  visits_each_once set_iter → wf_json d1 → wf_json d2 →
  compare_json_structures set_iter d1 d2 = ∅ ↔ py_eq d1 d2 = true.
Proof.
  intros Hiter W1 W2. unfold compare_json_structures.
  rewrite assign_all_empty_iff. by apply find_differences_nil_iff.
Qed.

Lemma compare_json_structures_empty_iff_witness :
  compare_json_structures id
      (JObj [("a", JInt 1); ("b", JBool true)])
      (JObj [("b", JInt 1); ("a", JDec 10 (-1))]) = ∅ ↔
  py_eq (JObj [("a", JInt 1); ("b", JBool true)])
        (JObj [("b", JInt 1); ("a", JDec 10 (-1))]) = true.
Proof.
  apply compare_json_structures_empty_iff.
  - intros keys. reflexivity.
  - simpl. repeat split; apply (bool_decide_unpack _); vm_compute; exact I.
  - simpl. repeat split; apply (bool_decide_unpack _); vm_compute; exact I.
Defined.

Lemma fmap_bind_out {A B C} (h : B → C) (f : A → list B) (l : list A) :
  h <$> (l ≫= f) = l ≫= (λ x, h <$> f x).
Proof.
  induction l as [|x r IH]; [done|].
  by rewrite !bind_cons, fmap_app, IH.
Qed.

Lemma num_eqb_sym x y : num_eqb x y = num_eqb y x.
Proof. unfold num_eqb. by rewrite Z.eqb_sym, (Z.min_comm y.2 x.2). Qed.

Lemma py_eq_sym_other d1 d2 :
  kind_of d1 ≠ kind_of d2 ∨ kind_of d1 = KScalar →
  py_eq d1 d2 = py_eq d2 d1.
Proof.
  intros Hk.
  destruct d1, d2; simpl; try done; try apply num_eqb_sym;
    try (by destruct Hk).
  apply bool_decide_ext. split; by intros ->.
Qed.

Lemma union_keys_comm f1 f2 : union_keys f2 f1 ≡ₚ union_keys f1 f2.
Proof.
  unfold union_keys. apply NoDup_Permutation; [apply NoDup_remove_dups..|].
  intros key. rewrite !elem_of_remove_dups, !elem_of_app. tauto.
Qed.

Lemma assign_all_swap ws : ∀ dd,
  assign_all (swap_write <$> ws) (prod_swap <$> dd) =
    prod_swap <$> assign_all ws dd.
Proof.
  unfold assign_all. induction ws as [|w r IH]; intros dd; [done|].
  csimpl. rewrite <-IH. by rewrite fmap_insert.
Qed.

Section differ_sides.
Variable set_iter : list string → list string.
Hypothesis set_iter_once : visits_each_once set_iter.

(** Exchanging the two documents exchanges the sides of every assignment. *)
Lemma find_differences_swap d1 : ∀ d2 path,
  find_differences set_iter d2 d1 path ≡ₚ
    swap_write <$> find_differences set_iter d1 d2 path.
Proof.
  assert (∀ e1 e2 path,
            kind_of e1 ≠ kind_of e2 ∨ kind_of e1 = KScalar →
            find_differences set_iter e2 e1 path ≡ₚ
              swap_write <$> find_differences set_iter e1 e2 path) as Hother.
  { intros e1 e2 path Hk.
    rewrite (find_differences_other set_iter e1 e2) by done.
    rewrite (find_differences_other set_iter e2 e1).
    - rewrite (py_eq_sym_other e1 e2 Hk). by destruct (py_eq e2 e1).
    - destruct Hk as [Hk|Hk]; [left; congruence|].
      destruct (decide (kind_of e2 = KScalar)); [by right|left; congruence]. }
  induction d1 as [| | | | |l1 IH|f1 IH] using json_nested_ind;
    intros d2 path.
  1-5: by apply Hother; right.
  - destruct (decide (kind_of d2 = KArr)) as [K|K];
      [|apply Hother; left; by destruct d2].
    destruct d2 as [| | | | |l2|]; try done.
    rewrite !find_differences_arr, fmap_bind_out, (Nat.max_comm (length l2)).
    apply bind_perm_ext. intros index _. unfold index_step.
    destruct (l1 !! index) as [v1|] eqn:E1, (l2 !! index) as [v2|]; try done.
    rewrite Forall_forall in IH. apply IH. by eapply list_elem_of_lookup_2.
  - destruct (decide (kind_of d2 = KObj)) as [K|K];
      [|apply Hother; left; by destruct d2].
    destruct d2 as [| | | | | |f2]; try done.
    rewrite !find_differences_obj, fmap_bind_out.
    rewrite !(set_iter_once _), (union_keys_comm f1 f2).
    apply bind_perm_ext. intros key _. unfold key_step.
    destruct (dict_get key f1) as [v1|] eqn:E1, (dict_get key f2) as [v2|];
      try done.
    rewrite Forall_forall in IH. apply (IH _ (dict_get_Some _ _ _ E1)).
Qed.
End differ_sides.

(** X5: exchanging the two documents reports the same paths; when no two
    assignments of the run go to the same path, it reports the same entries
    with their two sides exchanged. *)
Theorem compare_json_structures_swap (set_iter : list string → list string)
    (d1 d2 : json) :
  visits_each_once set_iter →
  dom (compare_json_structures set_iter d2 d1) =
    dom (compare_json_structures set_iter d1 d2) ∧
  (NoDup (find_differences set_iter d1 d2 "").*1 →
   compare_json_structures set_iter d2 d1 =
     prod_swap <$> compare_json_structures set_iter d1 d2).
Proof.
  intros Hiter. unfold compare_json_structures.
  pose proof (find_differences_swap set_iter Hiter d1 d2 "") as P.
  assert ((swap_write <$> find_differences set_iter d1 d2 "").*1 =
          (find_differences set_iter d1 d2 "").*1) as Hkeys.
  { rewrite <-list_fmap_compose. by apply list_fmap_ext. }
  split.
  - apply set_eq. intros p. rewrite !dom_assign_all, P, Hkeys. done.
  - intros Hnd. rewrite <-(fmap_empty prod_swap) at 1.
    rewrite <-assign_all_swap, fmap_empty. symmetry.
    apply assign_all_perm; [by rewrite Hkeys|by symmetry].
Qed.

Lemma compare_json_structures_swap_witness :
  dom (compare_json_structures id
         (JObj [("b", JArr [JInt 1; JInt 3]); ("c", JNull)])
         (JObj [("a", JInt 1); ("b", JArr [JInt 1; JInt 2])])) =
    dom (compare_json_structures id
           (JObj [("a", JInt 1); ("b", JArr [JInt 1; JInt 2])])
           (JObj [("b", JArr [JInt 1; JInt 3]); ("c", JNull)])) ∧
  compare_json_structures id
      (JObj [("b", JArr [JInt 1; JInt 3]); ("c", JNull)])
      (JObj [("a", JInt 1); ("b", JArr [JInt 1; JInt 2])]) =
    prod_swap <$>
      compare_json_structures id
        (JObj [("a", JInt 1); ("b", JArr [JInt 1; JInt 2])])
        (JObj [("b", JArr [JInt 1; JInt 3]); ("c", JNull)]).
Proof.
  destruct (compare_json_structures_swap id
              (JObj [("a", JInt 1); ("b", JArr [JInt 1; JInt 2])])
              (JObj [("b", JArr [JInt 1; JInt 3]); ("c", JNull)]))
    as [Hdom Hswap].
  - intros keys. reflexivity.
  - split; [done|]. apply Hswap.
    apply (bool_decide_unpack _). vm_compute. exact I.
Defined.

(** X6: which paths are reported never depends on the order in which the
    key sets are iterated, even when assignments collide on a path. *)
Theorem compare_json_structures_paths_order
    (iter1 iter2 : list string → list string) (d1 d2 : json) :
  visits_each_once iter1 → visits_each_once iter2 →
  dom (compare_json_structures iter1 d1 d2) =
    dom (compare_json_structures iter2 d1 d2).
Proof.
  intros H1 H2. unfold compare_json_structures. apply set_eq. intros p.
  by rewrite !dom_assign_all, (find_differences_perm iter1 iter2 H1 H2 d1 d2 "").
Qed.

Lemma compare_json_structures_paths_order_witness :
  dom (compare_json_structures id
         (JObj [("a", JObj [("b", JInt 1)]); ("a/b", JInt 2)])
         (JObj [("a", JObj [("b", JInt 3)]); ("a/b", JInt 4)])) =
    dom (compare_json_structures reverse
           (JObj [("a", JObj [("b", JInt 1)]); ("a/b", JInt 2)])
           (JObj [("a", JObj [("b", JInt 3)]); ("a/b", JInt 4)])).
Proof.
  apply compare_json_structures_paths_order.
  - intros keys. reflexivity.
  - intros keys. apply reverse_Permutation.
Defined.

(** X7: a document with unique keys compared with a copy whose objects list
    their keys in another order yields the empty mapping. *)
Theorem compare_json_structures_reordered (set_iter : list string → list string)
    (d d' : json) :
  visits_each_once set_iter → wf_json d → json_equiv d d' →
  compare_json_structures set_iter d d' = ∅.
Proof.
  intros Hiter W E. unfold compare_json_structures.
  destruct (find_differences_equiv set_iter set_iter Hiter Hiter
              d d d d' "" W W (json_equiv_refl d) E) as (m & P & F).
  rewrite find_differences_same in P. apply Permutation_nil_l in P as <-.
  by inversion F.
Qed.

Lemma compare_json_structures_reordered_witness :
  compare_json_structures id
      (JObj [("a", JInt 1); ("b", JArr [JNull])])
      (JObj [("b", JArr [JNull]); ("a", JInt 1)]) = ∅.
Proof.
  apply compare_json_structures_reordered.
  - intros keys. reflexivity.
  - simpl. repeat split; apply (bool_decide_unpack _); vm_compute; exact I.
  - apply (json_equiv_obj _ [("b", JArr [JNull]); ("a", JInt 1)]).
    + apply perm_swap.
    + repeat (constructor; [split; [done|apply json_equiv_refl]|]). constructor.
Defined.

Section differ_growth.
Variable set_iter : list string → list string.

Lemma index_step_tail (l1 l2 : list json) path (extra : list json) : ∀ n,
  (∀ i x, extra !! i = Some x → l1 !! (n + i)%nat = Some x) →
  (∀ i, l2 !! (n + i)%nat = None) →
  seq n (length extra) ≫= index_step set_iter l1 l2 path =
    imap (λ i x, (index_path path (n + i), (x, ELEMENT_NOT_FOUND))) extra.
Proof.
  induction extra as [|x r IH]; intros n H1 H2; [done|].
  assert (l1 !! n = Some x) as E1.
  { rewrite <-(Nat.add_0_r n). by apply H1. }
  assert (l2 !! n = None) as E2.
  { rewrite <-(Nat.add_0_r n). apply H2. }
  simpl length. simpl seq. rewrite bind_cons, imap_cons.
  unfold index_step at 1. rewrite E1, E2, Nat.add_0_r. simpl. f_equal.
  rewrite (IH (S n)).
  - apply imap_ext. intros i y _. simpl. do 2 f_equal. lia.
  - intros i y Hy. replace (S n + i)%nat with (n + S i)%nat by lia. by apply H1.
  - intros i. replace (S n + i)%nat with (n + S i)%nat by lia. apply H2.
Qed.

Lemma index_step_tail_right (l1 l2 : list json) path (extra : list json) : ∀ n,
  (∀ i, l1 !! (n + i)%nat = None) →
  (∀ i x, extra !! i = Some x → l2 !! (n + i)%nat = Some x) →
  seq n (length extra) ≫= index_step set_iter l1 l2 path =
    imap (λ i x, (index_path path (n + i), (ELEMENT_NOT_FOUND, x))) extra.
Proof.
  induction extra as [|x r IH]; intros n H1 H2; [done|].
  assert (l1 !! n = None) as E1.
  { rewrite <-(Nat.add_0_r n). apply H1. }
  assert (l2 !! n = Some x) as E2.
  { rewrite <-(Nat.add_0_r n). by apply H2. }
  simpl length. simpl seq. rewrite bind_cons, imap_cons.
  unfold index_step at 1. rewrite E1, E2, Nat.add_0_r. simpl. f_equal.
  rewrite (IH (S n)).
  - apply imap_ext. intros i y _. simpl. do 2 f_equal. lia.
  - intros i. replace (S n + i)%nat with (n + S i)%nat by lia. apply H1.
  - intros i y Hy. replace (S n + i)%nat with (n + S i)%nat by lia. by apply H2.
Qed.

Lemma index_step_common (l1 l2 : list json) (n : nat) path :
  (∀ i, (i < n)%nat → l1 !! i = l2 !! i) →
  seq 0 n ≫= index_step set_iter l1 l2 path = [].
Proof.
  intros H. apply bind_nil. intros i Hi%elem_of_seq. unfold index_step.
  rewrite (H i) by lia.
  destruct (l2 !! i); [apply find_differences_same|done].
Qed.
End differ_growth.

(** X8: an array compared with itself extended by further elements yields
    exactly one assignment per further element, in index order, at the path
    of its index and with "Element not found" on the shorter side. *)
Theorem find_differences_array_growth (set_iter : list string → list string)
    (l extra : list json) (path : string) :
  find_differences set_iter (JArr (l ++ extra)) (JArr l) path =
    imap (λ i x, (index_path path (length l + i), (x, ELEMENT_NOT_FOUND))) extra ∧
  find_differences set_iter (JArr l) (JArr (l ++ extra)) path =
    imap (λ i x, (index_path path (length l + i), (ELEMENT_NOT_FOUND, x))) extra.
Proof.
  split; rewrite find_differences_arr, length_app.
  - replace (Nat.max (length l + length extra) (length l))
      with (length l + length extra)%nat by lia.
    rewrite seq_app, bind_app, index_step_common; simpl.
    2: { intros i Hi. by rewrite lookup_app_l. }
    apply index_step_tail.
    + intros i x Hx. rewrite lookup_app_r by lia.
      by replace (length l + i - length l)%nat with i by lia.
    + intros i. apply lookup_ge_None. lia.
  - replace (Nat.max (length l) (length l + length extra))
      with (length l + length extra)%nat by lia.
    rewrite seq_app, bind_app, index_step_common; simpl.
    2: { intros i Hi. by rewrite lookup_app_l. }
    apply index_step_tail_right.
    + intros i. apply lookup_ge_None. lia.
    + intros i x Hx. rewrite lookup_app_r by lia.
      by replace (length l + i - length l)%nat with i by lia.
Qed.

Lemma dict_get_app_l {A} key (f g : list (string * A)) v :
  dict_get key f = Some v → dict_get key (f ++ g) = Some v.
Proof.
  induction f as [|[k w] r IH]; simpl; [done|]. by case_decide.
Qed.

Lemma dict_get_app_r {A} key (f g : list (string * A)) :
  dict_get key f = None → dict_get key (f ++ g) = dict_get key g.
Proof.
  induction f as [|[k w] r IH]; simpl; [done|]. by case_decide.
Qed.

Lemma bind_singletons {A B} (f : A → list B) (g : A → B) (l : list A) :
  (∀ x, x ∈ l → f x = [g x]) → l ≫= f = g <$> l.
Proof.
  induction l as [|x r IH]; intros H; [done|].
  rewrite bind_cons, fmap_cons, (H x) by left. simpl. f_equal.
  apply IH. intros y Hy. apply H. by right.
Qed.

Lemma assign_all_list_to_map (ws : list write) :
  NoDup ws.*1 → assign_all ws ∅ = list_to_map ws.
Proof.
  intros Hnd. apply map_eq. intros p. apply option_eq. intros e.
  rewrite assign_all_lookup, <-elem_of_list_to_map by done.
  rewrite lookup_empty. split; [by intros [?|[_ ?]]|by left].
Qed.

Lemma dict_get_is_Some {A} key (fields : list (string * A)) v :
  (key, v) ∈ fields → is_Some (dict_get key fields).
Proof.
  induction fields as [|[k w] r IH]; simpl; [by intros ?%elem_of_nil|].
  intros [[= -> ->]|Hin]%elem_of_cons; case_decide; by eauto.
Qed.

Section object_growth.
Variable set_iter : list string → list string.
Hypothesis set_iter_once : visits_each_once set_iter.
Variables f extra : list (string * json).
Hypothesis keys_NoDup : NoDup (f ++ extra).*1.

Lemma grown_keys :
  set_iter (union_keys f (f ++ extra)) ≡ₚ f.*1 ++ extra.*1 ∧
  set_iter (union_keys (f ++ extra) f) ≡ₚ f.*1 ++ extra.*1.
Proof.
  rewrite !(set_iter_once _), <-fmap_app. unfold union_keys.
  split; (apply NoDup_Permutation; [apply NoDup_remove_dups|done|]);
    intros key; rewrite elem_of_remove_dups, !elem_of_app, fmap_app, elem_of_app;
    tauto.
Qed.

Lemma grown_common key v :
  dict_get key f = Some v → dict_get key (f ++ extra) = Some v.
Proof. apply dict_get_app_l. Qed.

Lemma grown_extra kv :
  kv ∈ extra →
  dict_get kv.1 f = None ∧ dict_get kv.1 (f ++ extra) = Some kv.2.
Proof.
  intros Hin. rewrite fmap_app in keys_NoDup.
  apply NoDup_app in keys_NoDup as (_ & Hdisj & Hextra).
  assert (dict_get kv.1 f = None) as Hnone.
  { destruct (dict_get kv.1 f) as [v|] eqn:E; [|done].
    apply dict_get_Some in E. destruct (Hdisj kv.1).
    - apply list_elem_of_fmap. by exists (kv.1, v).
    - apply list_elem_of_fmap. by exists kv. }
  split; [done|]. rewrite dict_get_app_r by done.
  apply dict_get_NoDup; [done|]. by destruct kv.
Qed.

Lemma find_differences_grown_right path :
  find_differences set_iter (JObj f) (JObj (f ++ extra)) path ≡ₚ
    (λ kv, (key_path path kv.1, (KEY_NOT_FOUND, kv.2)) : write) <$> extra.
Proof.
  rewrite find_differences_obj, (proj1 grown_keys), bind_app.
  rewrite bind_nil, app_nil_l.
  - rewrite list_fmap_bind.
    rewrite (bind_singletons _
      (λ kv, (key_path path kv.1, (KEY_NOT_FOUND, kv.2)) : write)); [done|].
    intros kv [E1 E2]%grown_extra. simpl. unfold key_step. by rewrite E1, E2.
  - intros key ([k v] & -> & Hin)%list_elem_of_fmap. simpl. unfold key_step.
    destruct (dict_get_is_Some _ _ _ Hin) as [w E].
    rewrite E, (grown_common k w E). apply find_differences_same.
Qed.

Lemma find_differences_grown_left path :
  find_differences set_iter (JObj (f ++ extra)) (JObj f) path ≡ₚ
    (λ kv, (key_path path kv.1, (kv.2, KEY_NOT_FOUND)) : write) <$> extra.
Proof.
  rewrite find_differences_obj, (proj2 grown_keys), bind_app.
  rewrite bind_nil, app_nil_l.
  - rewrite list_fmap_bind.
    rewrite (bind_singletons _
      (λ kv, (key_path path kv.1, (kv.2, KEY_NOT_FOUND)) : write)); [done|].
    intros kv [E1 E2]%grown_extra. simpl. unfold key_step. by rewrite E1, E2.
  - intros key ([k v] & -> & Hin)%list_elem_of_fmap. simpl. unfold key_step.
    destruct (dict_get_is_Some _ _ _ Hin) as [w E].
    rewrite E, (grown_common k w E). apply find_differences_same.
Qed.
End object_growth.

(** X9: an object with unique keys compared with itself extended by further
    keys yields, whatever the iteration order, exactly one entry per further
    key, keyed by that key and with "Key not found" on the side that lacks
    it. *)
Theorem compare_json_structures_object_growth
    (set_iter : list string → list string) (f extra : list (string * json)) :
  visits_each_once set_iter →
  NoDup (f ++ extra).*1 →
  compare_json_structures set_iter (JObj f) (JObj (f ++ extra)) =
    list_to_map ((λ kv, (kv.1, (KEY_NOT_FOUND, kv.2))) <$> extra) ∧
  compare_json_structures set_iter (JObj (f ++ extra)) (JObj f) =
    list_to_map ((λ kv, (kv.1, (kv.2, KEY_NOT_FOUND))) <$> extra).
Proof.
  intros Hiter Hnd. unfold compare_json_structures.
  assert (NoDup extra.*1) as Hextra.
  { rewrite fmap_app in Hnd. by apply NoDup_app in Hnd as (_ & _ & ?). }
  split.
  - rewrite <-(assign_all_list_to_map
                 ((λ kv, (kv.1, (KEY_NOT_FOUND, kv.2)) : write) <$> extra)).
    + symmetry. apply assign_all_perm.
      * by rewrite <-list_fmap_compose.
      * symmetry. apply (find_differences_grown_right set_iter Hiter f extra Hnd "").
    + by rewrite <-list_fmap_compose.
  - rewrite <-(assign_all_list_to_map
                 ((λ kv, (kv.1, (kv.2, KEY_NOT_FOUND)) : write) <$> extra)).
    + symmetry. apply assign_all_perm.
      * by rewrite <-list_fmap_compose.
      * symmetry. apply (find_differences_grown_left set_iter Hiter f extra Hnd "").
    + by rewrite <-list_fmap_compose.
Qed.

Lemma compare_json_structures_object_growth_witness :
  compare_json_structures reverse
      (JObj [("a", JInt 1)]) (JObj ([("a", JInt 1)] ++ [("b", JNull); ("c", JStr "x")])) =
    list_to_map ((λ kv, (kv.1, (KEY_NOT_FOUND, kv.2))) <$> [("b", JNull); ("c", JStr "x")]) ∧
  compare_json_structures reverse
      (JObj ([("a", JInt 1)] ++ [("b", JNull); ("c", JStr "x")])) (JObj [("a", JInt 1)]) =
    list_to_map ((λ kv, (kv.1, (kv.2, KEY_NOT_FOUND))) <$> [("b", JNull); ("c", JStr "x")]).
Proof.
  apply compare_json_structures_object_growth.
  - intros keys. apply reverse_Permutation.
  - apply (bool_decide_unpack _). vm_compute. exact I.
Defined.

(** ** Further properties of summarize_comparison *)

Lemma first_count_absent structure l :
  l ∉ structure.*1 → first_count structure l = 0.
Proof.
  induction structure as [|[l' c] r IH]; simpl; [done|].
  rewrite not_elem_of_cons. intros [? ?]. case_decide; [congruence|auto].
Qed.

Lemma sum_one_level (ls : list Z) (l0 c0 : Z) (g : Z → Z) :
  NoDup ls → l0 ∈ ls → g l0 = 0 →
  foldr Z.add 0 ((λ l, if decide (l0 = l) then c0 else g l) <$> ls) =
    c0 + foldr Z.add 0 (g <$> ls).
Proof.
  intros Hnd Hin Hg. induction Hnd as [|l r Hl Hnd IH]; [by apply elem_of_nil in Hin|].
  csimpl. apply elem_of_cons in Hin as [<-|Hin].
  - rewrite decide_True, Hg by done.
    rewrite (list_fmap_ext _ g r); [lia|].
    intros i x Hx. case_decide as E; [|done]. subst.
    destruct Hl. by eapply list_elem_of_lookup_2.
  - rewrite decide_False, (IH Hin); [lia|]. intros ->. done.
Qed.

(** Over a set of levels that covers a sequence with distinct levels, the
    looked-up counts add up to the sequence's total. *)
Lemma sum_first_count structure (ls : list Z) :
  NoDup ls → NoDup structure.*1 → (∀ l, l ∈ structure.*1 → l ∈ ls) →
  foldr Z.add 0 (first_count structure <$> ls) = foldr Z.add 0 structure.*2.
Proof.
  intros Hls. induction structure as [|[l0 c0] r IH]; intros Hnd Hcover.
  - apply sum_fmap_zero.
  - rewrite fmap_cons in Hnd. apply NoDup_cons in Hnd as [Hl0 Hnd].
    csimpl.
    rewrite (sum_one_level ls l0 c0 (first_count r)); [|done| |].
    + rewrite IH; [done..|]. intros l Hl. apply Hcover. rewrite fmap_cons. by right.
    + apply Hcover. rewrite fmap_cons. left.
    + by apply first_count_absent.
Qed.

(** X10: for level sequences with distinct levels, all at least 1, the
    summary accounts for every node: the [body1] and [body2] columns add up
    to the two totals, and the [difference] column to their difference. *)
Theorem summarize_comparison_columns (structure1 structure2 : list (Z * Z))
    (diffs : gmap string (json * json)) (smry : summary) :
  NoDup structure1.*1 → NoDup structure2.*1 →
  Forall (λ lc, 1 ≤ lc.1) structure1 → Forall (λ lc, 1 ≤ lc.1) structure2 →
  summarize_comparison structure1 structure2 diffs = inr smry →
  foldr Z.add 0 (body1 <$> detailed_comparison smry) = (total_nodes smry).1 ∧
  foldr Z.add 0 (body2 <$> detailed_comparison smry) = (total_nodes smry).2 ∧
  foldr Z.add 0 (difference <$> detailed_comparison smry) =
    (total_nodes smry).1 - (total_nodes smry).2.
Proof.
  intros Hnd1 Hnd2 Hpos1 Hpos2. unfold summarize_comparison.
  destruct (py_max structure1.*1) as [|m1] eqn:E1; [done|].
  destruct (py_max structure2.*1) as [|m2] eqn:E2; [done|].
  intros [= <-]. simpl. rewrite append_loop, !py_sum_foldr. simpl.
  rewrite <-!list_fmap_compose.
  assert (∀ (structure : list (Z * Z)) m, py_max structure.*1 = inr m →
            Forall (λ lc, 1 ≤ lc.1) structure → m ≤ Z.max m1 m2 →
            ∀ l, l ∈ structure.*1 → l ∈ seqZ 1 (Z.max m1 m2)) as Hcover.
  { intros structure m E Hpos Hm l Hl.
    destruct (py_max_inr structure.*1) as (m' & E' & _ & Hub).
    { intros Hnil. rewrite Hnil in Hl. by apply elem_of_nil in Hl. }
    rewrite E in E'. injection E' as <-.
    apply elem_of_seqZ. specialize (Hub _ Hl).
    apply list_elem_of_fmap in Hl as (lc & -> & Hlc).
    rewrite Forall_forall in Hpos. specialize (Hpos _ Hlc). lia. }
  assert (foldr Z.add 0 (first_count structure1 <$> seqZ 1 (m1 `max` m2)) =
          foldr Z.add 0 structure1.*2) as S1.
  { apply sum_first_count; [apply NoDup_seqZ|done|].
    apply (Hcover structure1 m1 E1 Hpos1). lia. }
  assert (foldr Z.add 0 (first_count structure2 <$> seqZ 1 (m1 `max` m2)) =
          foldr Z.add 0 structure2.*2) as S2.
  { apply sum_first_count; [apply NoDup_seqZ|done|].
    apply (Hcover structure2 m2 E2 Hpos2). lia. }
  split; [exact S1|]. split; [exact S2|].
  rewrite <-S1, <-S2.
  rewrite (list_fmap_ext _
             (λ l, first_count structure1 l + (λ l, - first_count structure2 l) l)
             (seqZ 1 (m1 `max` m2))) by (intros; simpl; lia).
  rewrite (sum_fmap_add (first_count structure1) (λ l, - first_count structure2 l)).
  assert (∀ ls : list Z, foldr Z.add 0 ((λ l, - first_count structure2 l) <$> ls) =
                         - foldr Z.add 0 (first_count structure2 <$> ls)) as Hneg.
  { induction ls as [|x r IH]; csimpl; [done|]. rewrite IH. lia. }
  rewrite Hneg. lia.
Qed.

Lemma summarize_comparison_columns_witness :
  ∃ smry,
    summarize_comparison [(2, 4); (1, 1)] [(1, 1); (3, 2); (2, 7)] ∅ = inr smry ∧
    foldr Z.add 0 (body1 <$> detailed_comparison smry) = (total_nodes smry).1 ∧
    foldr Z.add 0 (body2 <$> detailed_comparison smry) = (total_nodes smry).2 ∧
    foldr Z.add 0 (difference <$> detailed_comparison smry) =
      (total_nodes smry).1 - (total_nodes smry).2.
Proof.
  eexists. split; [reflexivity|].
  apply (summarize_comparison_columns [(2, 4); (1, 1)] [(1, 1); (3, 2); (2, 7)] ∅).
  - apply (bool_decide_unpack _). vm_compute. exact I.
  - apply (bool_decide_unpack _). vm_compute. exact I.
  - repeat constructor; simpl; lia.
  - repeat constructor; simpl; lia.
  - reflexivity.
Defined.

(** ** Properties of the three stages run together, and of main *)

Lemma first_count_parse d l :
  1 ≤ l → first_count (parse_json_structure d) l = nodes_at d (Z.to_nat (l - 1)).
Proof.
  intros Hl. destruct (first_count_spec (parse_json_structure d) l) as [H|[H ->]].
  - apply parse_json_structure_elem in H. lia.
  - rewrite parse_json_structure_keys in H.
    pose proof (nodes_at_nonneg d (Z.to_nat (l - 1))). lia.
Qed.

Lemma py_max_parse d :
  py_max (parse_json_structure d).*1 = inr (Z.of_nat (height d)).
Proof.
  destruct (py_max_inr (parse_json_structure d).*1) as (m & -> & Hin & Hub).
  { rewrite parse_json_structure_range, parse_json_structure_length.
    destruct d; simpl; rewrite seqZ_cons by lia; done. }
  f_equal.
  rewrite parse_json_structure_range, parse_json_structure_length in Hin, Hub.
  apply elem_of_seqZ in Hin.
  assert (1 ≤ height d)%nat by (destruct d; simpl; lia).
  specialize (Hub (Z.of_nat (height d))).
  rewrite elem_of_seqZ in Hub. lia.
Qed.

Lemma main_summary_rows (set_iter : list string → list string) (d1 d2 : json) :
  main_summary set_iter d1 d2 =
    inr (Summary (count_nodes d1, count_nodes d2)
           ((λ k, LevelRow (Z.of_nat (S k)) (nodes_at d1 k) (nodes_at d2 k)
                           (nodes_at d1 k - nodes_at d2 k))
              <$> seq 0 (Nat.max (height d1) (height d2)))
           (compare_json_structures set_iter d1 d2)).
Proof.
  unfold main_summary, summarize_comparison.
  rewrite !py_max_parse, append_loop. simpl.
  do 2 f_equal.
  - f_equal.
    + rewrite py_sum_foldr, parse_json_structure_as_map, <-list_fmap_compose.
      by apply sum_nodes_at.
    + rewrite py_sum_foldr, parse_json_structure_as_map, <-list_fmap_compose.
      by apply sum_nodes_at.
  - rewrite <-Nat2Z.inj_max, seqZ_from_one.
    change (map ?f ?l) with (f <$> l). rewrite <-list_fmap_compose.
    apply list_fmap_ext. intros _ k _. simpl.
    rewrite !first_count_parse by lia.
    by replace (Z.to_nat (Z.of_nat (S k) - 1)) with k by lia.
Qed.

(** X11: for two documents nested no deeper than the recursion limit lets
    [traverse] descend, the three stages return a summary: the totals are
    the two node counts, there is one row per level up to the deeper of the
    two nesting depths, and each row holds the two documents' numbers of
    nodes at that depth and their difference. *)
Theorem main_summary_closed_form (set_iter : list string → list string)
    (recursion_limit : nat) (d1 d2 : json) :
  (height d1 ≤ recursion_limit)%nat → (height d2 ≤ recursion_limit)%nat →
  main_stages set_iter recursion_limit d1 d2 =
    inr (Summary (count_nodes d1, count_nodes d2)
           ((λ k, LevelRow (Z.of_nat (S k)) (nodes_at d1 k) (nodes_at d2 k)
                           (nodes_at d1 k - nodes_at d2 k))
              <$> seq 0 (Nat.max (height d1) (height d2)))
           (compare_json_structures set_iter d1 d2)).
Proof.
  intros H1 H2. unfold main_stages, traversal_fits.
  rewrite !bool_decide_true by done. simpl.
  by rewrite main_summary_rows.
Qed.

Lemma main_summary_closed_form_witness :
  main_stages id 1000 (JObj [("x", JObj [("y", JInt 1)])]) (JArr [JNull]) =
    inr (Summary (count_nodes (JObj [("x", JObj [("y", JInt 1)])]),
                  count_nodes (JArr [JNull]))
           ((λ k, LevelRow (Z.of_nat (S k))
                    (nodes_at (JObj [("x", JObj [("y", JInt 1)])]) k)
                    (nodes_at (JArr [JNull]) k)
                    (nodes_at (JObj [("x", JObj [("y", JInt 1)])]) k -
                     nodes_at (JArr [JNull]) k))
              <$> seq 0 (Nat.max (height (JObj [("x", JObj [("y", JInt 1)])]))
                                 (height (JArr [JNull]))))
           (compare_json_structures id
              (JObj [("x", JObj [("y", JInt 1)])]) (JArr [JNull]))).
Proof.
  apply (main_summary_closed_form id 1000
           (JObj [("x", JObj [("y", JInt 1)])]) (JArr [JNull])); simpl; lia.
Defined.

(** X12: a document with unique keys compared with itself, or with a copy
    whose objects list their keys in another order, gives a summary with
    equal totals, difference 0 in every row and no diff entry. *)
Theorem main_summary_no_difference (set_iter : list string → list string)
    (d d' : json) :
  visits_each_once set_iter → wf_json d → json_equiv d d' →
  ∃ smry,
    main_summary set_iter d d' = inr smry ∧
    (total_nodes smry).1 = (total_nodes smry).2 ∧
    Forall (λ row, body1 row = body2 row ∧ difference row = 0)
           (detailed_comparison smry) ∧
    differences smry = ∅.
Proof.
  intros Hiter W E. eexists. split; [apply main_summary_rows|]. simpl.
  split_and!.
  - rewrite <-(sum_nodes_at d (Nat.max (height d) (height d'))) by lia.
    rewrite <-(sum_nodes_at d' (Nat.max (height d) (height d'))) by lia.
    f_equal. apply list_fmap_ext. intros _ k _. by apply nodes_at_equiv.
  - apply Forall_fmap, Forall_forall. intros k _. simpl.
    rewrite (nodes_at_equiv d d' k E). lia.
  - destruct (find_differences_equiv set_iter set_iter Hiter Hiter
                d d d d' "" W W (json_equiv_refl d) E) as (m & P & F).
    rewrite find_differences_same in P. apply Permutation_nil_l in P as <-.
    unfold compare_json_structures. by inversion F.
Qed.

Lemma main_summary_no_difference_witness :
  ∃ smry,
    main_summary id (JObj [("a", JInt 1); ("b", JArr [JNull])])
                    (JObj [("b", JArr [JNull]); ("a", JInt 1)]) = inr smry ∧
    (total_nodes smry).1 = (total_nodes smry).2 ∧
    Forall (λ row, body1 row = body2 row ∧ difference row = 0)
           (detailed_comparison smry) ∧
    differences smry = ∅.
Proof.
  apply main_summary_no_difference.
  - intros keys. reflexivity.
  - simpl. repeat split; apply (bool_decide_unpack _); vm_compute; exact I.
  - apply (json_equiv_obj _ [("b", JArr [JNull]); ("a", JInt 1)]).
    + apply perm_swap.
    + repeat (constructor; [split; [done|apply json_equiv_refl]|]). constructor.
Defined.

(** X13: when either document is falsy in Python ([None] for a file that
    could not be read, but also [null], [false], [0], the empty string,
    [[]] and [{}]), [main] logs that the files could not be read and the
    reading time, and then raises [UnboundLocalError] on [parse_end_time],
    which only the other branch assigns. *)
Theorem main_falsy_document (set_iter : list string → list string)
    (time : Type) (clock : nat → time) (recursion_limit : nat)
    (json_data1 json_data2 : json) :
  py_truthy json_data1 && py_truthy json_data2 = false →
  (run_main set_iter time clock recursion_limit json_data1 json_data2).1 =
    inl (UnboundLocalError "parse_end_time") ∧
  logged time (run_main set_iter time clock recursion_limit
                 json_data1 json_data2).2 =
    [LogError time "One or both JSON files could not be read.";
     LogInfo time "
Timing Details:";
     LogDuration time "  Reading JSON files: " (clock 2%nat) (clock 1%nat)].
Proof.
  intros H. unfold run_main, main. rewrite H. by vm_compute.
Qed.

Lemma main_falsy_document_witness :
  (run_main id nat id 1000 (JObj []) (JObj [("a", JInt 1)])).1 =
    inl (UnboundLocalError "parse_end_time") ∧
  logged nat (run_main id nat id 1000 (JObj []) (JObj [("a", JInt 1)])).2 =
    [LogError nat "One or both JSON files could not be read.";
     LogInfo nat "
Timing Details:";
     LogDuration nat "  Reading JSON files: " 2%nat 1%nat].
Proof.
  apply (main_falsy_document id nat id 1000 (JObj []) (JObj [("a", JInt 1)])).
  reflexivity.
Defined.

(** X14: when both documents are truthy and nested no deeper than the
    recursion limit lets [traverse] descend, [main] completes: it prints the
    summary of the three stages and then the five timing lines, each from
    the readings taken around its stage; every timing variable is bound
    when it is read. *)
Theorem main_truthy_documents (set_iter : list string → list string)
    (time : Type) (clock : nat → time) (recursion_limit : nat)
    (json_data1 json_data2 : json) :
  py_truthy json_data1 && py_truthy json_data2 = true →
  (height json_data1 ≤ recursion_limit)%nat →
  (height json_data2 ≤ recursion_limit)%nat →
  ∃ smry,
    main_stages set_iter recursion_limit json_data1 json_data2 = inr smry ∧
    (run_main set_iter time clock recursion_limit json_data1 json_data2).1 =
      inr tt ∧
    logged time (run_main set_iter time clock recursion_limit
                   json_data1 json_data2).2 =
      [LogSummary time smry;
       LogInfo time "
Timing Details:";
       LogDuration time "  Reading JSON files: " (clock 2%nat) (clock 1%nat);
       LogDuration time "  Parsing JSON structures: " (clock 4%nat) (clock 3%nat);
       LogDuration time "  Comparing JSON structures: " (clock 6%nat) (clock 5%nat);
       LogDuration time "  Summarizing comparison: " (clock 8%nat) (clock 7%nat);
       LogDuration time "Total duration: " (clock 9%nat) (clock 0%nat)].
Proof.
  intros H H1 H2. eexists.
  unfold main_stages, run_main, main, parse_stage, traversal_fits.
  rewrite H, !bool_decide_true, main_summary_rows by done. simpl andb. cbv iota.
  split; [reflexivity|].
  generalize (Summary (count_nodes json_data1, count_nodes json_data2)
           ((λ k, LevelRow (Z.of_nat (S k)) (nodes_at json_data1 k)
                           (nodes_at json_data2 k)
                           (nodes_at json_data1 k - nodes_at json_data2 k))
              <$> seq 0 (Nat.max (height json_data1) (height json_data2)))
           (compare_json_structures set_iter json_data1 json_data2)).
  intros smry. by vm_compute.
Qed.

Lemma main_truthy_documents_witness :
  ∃ smry,
    main_stages id 1000 (JObj [("a", JInt 1)]) (JArr [JNull]) = inr smry ∧
    (run_main id nat id 1000 (JObj [("a", JInt 1)]) (JArr [JNull])).1 = inr tt ∧
    logged nat (run_main id nat id 1000 (JObj [("a", JInt 1)]) (JArr [JNull])).2 =
      [LogSummary nat smry;
       LogInfo nat "
Timing Details:";
       LogDuration nat "  Reading JSON files: " 2%nat 1%nat;
       LogDuration nat "  Parsing JSON structures: " 4%nat 3%nat;
       LogDuration nat "  Comparing JSON structures: " 6%nat 5%nat;
       LogDuration nat "  Summarizing comparison: " 8%nat 7%nat;
       LogDuration nat "Total duration: " 9%nat 0%nat].
Proof.
  apply (main_truthy_documents id nat id 1000 (JObj [("a", JInt 1)]) (JArr [JNull])).
  - reflexivity.
  - simpl. lia.
  - simpl. lia.
Defined.

(** ** The assignments of a run are the points of divergence *)

Lemma structural_path_app path steps1 steps2 :
  structural_path path (steps1 ++ steps2) =
    structural_path (structural_path path steps1) steps2.
Proof.
  revert path. induction steps1 as [|[k|i] r IH]; intros path; simpl; auto.
Qed.

Lemma diff_point_under_key f1 f2 k c1 c2 steps a b :
  dict_get k f1 = Some c1 → dict_get k f2 = Some c2 →
  diff_point c1 c2 steps a b →
  diff_point (JObj f1) (JObj f2) (Key k :: steps) a b.
Proof.
  intros E1 E2 [s x y Hn Hm|pre g1 g2 j x Hn G1 G2|pre g1 g2 j y Hn G1 G2
               |pre l1 l2 i x Hn G1 G2|pre l1 l2 i y Hn G1 G2].
  - apply diff_mismatch; [by eapply node_pair_key|done].
  - apply (diff_key_left _ _ (Key k :: pre) g1 g2); [by eapply node_pair_key|done..].
  - apply (diff_key_right _ _ (Key k :: pre) g1 g2); [by eapply node_pair_key|done..].
  - apply (diff_index_left _ _ (Key k :: pre) l1 l2); [by eapply node_pair_key|done..].
  - apply (diff_index_right _ _ (Key k :: pre) l1 l2); [by eapply node_pair_key|done..].
Qed.

Lemma diff_point_under_index (l1 l2 : list json) (i : nat) c1 c2 steps a b :
  l1 !! i = Some c1 → l2 !! i = Some c2 →
  diff_point c1 c2 steps a b →
  diff_point (JArr l1) (JArr l2) (Index i :: steps) a b.
Proof.
  intros E1 E2 [s x y Hn Hm|pre g1 g2 j x Hn G1 G2|pre g1 g2 j y Hn G1 G2
               |pre m1 m2 j x Hn G1 G2|pre m1 m2 j y Hn G1 G2].
  - apply diff_mismatch; [by eapply node_pair_index|done].
  - apply (diff_key_left _ _ (Index i :: pre) g1 g2); [by eapply node_pair_index|done..].
  - apply (diff_key_right _ _ (Index i :: pre) g1 g2); [by eapply node_pair_index|done..].
  - apply (diff_index_left _ _ (Index i :: pre) m1 m2); [by eapply node_pair_index|done..].
  - apply (diff_index_right _ _ (Index i :: pre) m1 m2); [by eapply node_pair_index|done..].
Qed.

Lemma assign_all_written ws : ∀ dd p e,
  assign_all ws dd !! p = Some e → (p, e) ∈ ws ∨ dd !! p = Some e.
Proof.
  unfold assign_all. induction ws as [|[q u] r IH]; intros dd p e; simpl; [by right|].
  intros [Hin|H]%IH; [left; by right|].
  destruct (decide (q = p)) as [->|Hne].
  - rewrite lookup_insert_eq in H. injection H as ->. left. left.
  - rewrite lookup_insert_ne in H by done. by right.
Qed.

Section divergence.
Variable set_iter : list string → list string.

(** Every assignment is made for a point of divergence, at its path. *)
Lemma find_differences_sound d1 : ∀ d2 path p a b,
  (p, (a, b)) ∈ find_differences set_iter d1 d2 path →
  ∃ steps, p = structural_path path steps ∧ diff_point d1 d2 steps a b.
Proof.
  assert (∀ e1 e2 path p a b,
            kind_of e1 ≠ kind_of e2 ∨ kind_of e1 = KScalar →
            (p, (a, b)) ∈ find_differences set_iter e1 e2 path →
            ∃ steps, p = structural_path path steps ∧ diff_point e1 e2 steps a b)
    as Hother.
  { intros e1 e2 path p a b Hk. rewrite find_differences_other by done.
    destruct (py_eq e1 e2) eqn:Hpy; [by intros ?%elem_of_nil|].
    intros [= -> -> ->]%list_elem_of_singleton. exists []. split; [done|].
    apply diff_mismatch; [constructor|].
    destruct Hk as [Hk|Hk]; [by left|].
    destruct (decide (kind_of e2 = KScalar)) as [K2|K2]; [by right|].
    left. congruence. }
  induction d1 as [| | | | |l1 IH|f1 IH] using json_nested_ind;
    intros d2 path p x y.
  1-5: by apply Hother; right.
  - destruct (decide (kind_of d2 = KArr)) as [K|K];
      [|apply Hother; left; by destruct d2].
    destruct d2 as [| | | | |l2|]; try done.
    rewrite find_differences_arr, list_elem_of_bind.
    intros (i & Hw & _). unfold index_step in Hw.
    destruct (l1 !! i) as [v1|] eqn:E1, (l2 !! i) as [v2|] eqn:E2.
    + rewrite Forall_forall in IH.
      apply IH in Hw as (steps & -> & Hd); [|by eapply list_elem_of_lookup_2].
      exists (Index i :: steps). split; [done|].
      by apply (diff_point_under_index l1 l2 i v1 v2).
    + apply list_elem_of_singleton in Hw as [= -> -> ->].
      exists ([] ++ [Index i]). split; [done|].
      apply (diff_index_left _ _ [] l1 l2); [constructor|done..].
    + apply list_elem_of_singleton in Hw as [= -> -> ->].
      exists ([] ++ [Index i]). split; [done|].
      apply (diff_index_right _ _ [] l1 l2); [constructor|done..].
    + by apply elem_of_nil in Hw.
  - destruct (decide (kind_of d2 = KObj)) as [K|K];
      [|apply Hother; left; by destruct d2].
    destruct d2 as [| | | | | |f2]; try done.
    rewrite find_differences_obj, list_elem_of_bind.
    intros (k & Hw & _). unfold key_step in Hw.
    destruct (dict_get k f1) as [v1|] eqn:E1, (dict_get k f2) as [v2|] eqn:E2.
    + rewrite Forall_forall in IH.
      apply (IH _ (dict_get_Some _ _ _ E1)) in Hw as (steps & -> & Hd).
      exists (Key k :: steps). split; [done|].
      by apply (diff_point_under_key f1 f2 k v1 v2).
    + apply list_elem_of_singleton in Hw as [= -> -> ->].
      exists ([] ++ [Key k]). split; [done|].
      apply (diff_key_left _ _ [] f1 f2); [constructor|done..].
    + apply list_elem_of_singleton in Hw as [= -> -> ->].
      exists ([] ++ [Key k]). split; [done|].
      apply (diff_key_right _ _ [] f1 f2); [constructor|done..].
    + by apply elem_of_nil in Hw.
Qed.

Hypothesis set_iter_once : visits_each_once set_iter.

(** Every point of divergence gets its assignment. *)
Lemma find_differences_complete d1 d2 path steps a b :
  diff_point d1 d2 steps a b →
  (structural_path path steps, (a, b)) ∈ find_differences set_iter d1 d2 path.
Proof.
  assert (∀ pre v1 v2 w,
            node_pair d1 d2 pre v1 v2 →
            w ∈ find_differences set_iter v1 v2 (structural_path path pre) →
            w ∈ find_differences set_iter d1 d2 path) as Hblock.
  { intros pre v1 v2 w Hn Hw.
    destruct (node_pair_block set_iter set_iter_once d1 d2 pre v1 v2 Hn path)
      as (before & after & ->).
    rewrite !elem_of_app. right. by left. }
  intros [s x y Hn Hm|pre g1 g2 j x Hn G1 G2|pre g1 g2 j y Hn G1 G2
         |pre l1 l2 i x Hn G1 G2|pre l1 l2 i y Hn G1 G2].
  - apply (Hblock s x y _ Hn). rewrite find_differences_mismatched by done.
    by apply list_elem_of_singleton.
  - apply (Hblock pre _ _ _ Hn). rewrite structural_path_app.
    by apply key_only_left.
  - apply (Hblock pre _ _ _ Hn). rewrite structural_path_app.
    by apply key_only_right.
  - apply (Hblock pre _ _ _ Hn). rewrite structural_path_app.
    by apply index_only_left.
  - apply (Hblock pre _ _ _ Hn). rewrite structural_path_app.
    by apply index_only_right.
Qed.
End divergence.

(** X15: the assignments of a run are exactly the points where the two
    documents diverge, each at its StructuralPath; and every entry of the
    returned mapping is such a point. *)
Theorem find_differences_divergence (set_iter : list string → list string)
    (d1 d2 : json) :
  visits_each_once set_iter →
  (∀ path p a b,
     (p, (a, b)) ∈ find_differences set_iter d1 d2 path ↔
     ∃ steps, p = structural_path path steps ∧ diff_point d1 d2 steps a b) ∧
  (∀ p a b,
     compare_json_structures set_iter d1 d2 !! p = Some (a, b) →
     ∃ steps, p = structural_path "" steps ∧ diff_point d1 d2 steps a b).
Proof.
  intros Hiter. split.
  - intros path p a b. split; [apply find_differences_sound|].
    intros (steps & -> & Hd). by apply find_differences_complete.
  - intros p a b H. unfold compare_json_structures in H.
    apply assign_all_written in H as [H|H]; [|by rewrite lookup_empty in H].
    by apply (find_differences_sound set_iter d1 d2 "").
Qed.

Lemma find_differences_divergence_witness :
  ∃ steps,
    "x[1]" = structural_path "" steps ∧
    diff_point (JObj [("x", JArr [JInt 1; JInt 2])]) (JObj [("x", JArr [JInt 1])])
               steps (JInt 2) ELEMENT_NOT_FOUND.
Proof.
  destruct (find_differences_divergence id
              (JObj [("x", JArr [JInt 1; JInt 2])]) (JObj [("x", JArr [JInt 1])]))
    as [_ Hmap].
  - intros keys. reflexivity.
  - apply Hmap. reflexivity.
Defined.

(** ** Mismatched nodes and missing sides in the returned mapping *)

Lemma node_pair_functional d1 d2 steps a b :
  node_pair d1 d2 steps a b →
  ∀ a' b', node_pair d1 d2 steps a' b' → a' = a ∧ b' = b.
Proof.
  induction 1 as [d1 d2|f1 f2 k c1 c2 steps v1 v2 H1 H2 _ IH
                 |l1 l2 i c1 c2 steps v1 v2 H1 H2 _ IH]; intros a' b' H'.
  - by inversion H'.
  - inversion H' as [| ? ? ? c1' c2' ? ? ? G1 G2 Hn|]; subst.
    rewrite H1 in G1. rewrite H2 in G2.
    injection G1 as <-. injection G2 as <-. by apply IH.
  - inversion H' as [| | ? ? ? c1' c2' ? ? ? G1 G2 Hn]; subst.
    rewrite H1 in G1. rewrite H2 in G2.
    injection G1 as <-. injection G2 as <-. by apply IH.
Qed.

Lemma node_pair_split steps : ∀ d1 d2 more a b,
  node_pair d1 d2 (steps ++ more) a b →
  ∃ v1 v2, node_pair d1 d2 steps v1 v2 ∧ node_pair v1 v2 more a b.
Proof.
  induction steps as [|st r IH]; intros d1 d2 more a b H.
  - exists d1, d2. split; [constructor|done].
  - simpl in H.
    inversion H as [| f1 f2 k c1 c2 ? ? ? G1 G2 Hn
                   | l1 l2 i c1 c2 ? ? ? G1 G2 Hn]; subst.
    + destruct (IH _ _ _ _ _ Hn) as (v1 & v2 & Hv & Hm).
      exists v1, v2. split; [by eapply node_pair_key|done].
    + destruct (IH _ _ _ _ _ Hn) as (v1 & v2 & Hv & Hm).
      exists v1, v2. split; [by eapply node_pair_index|done].
Qed.

(** Below a mismatched pair of nodes there is no pair of nodes. *)
Lemma mismatched_leaf v1 v2 more a b :
  mismatched v1 v2 → node_pair v1 v2 more a b → more = [].
Proof.
  intros Hm H. destruct H as [| |]; [done|..];
    by destruct Hm as [?|(? & _)].
Qed.

Lemma no_divergence_below d1 d2 steps v1 v2 more a b :
  node_pair d1 d2 steps v1 v2 → mismatched v1 v2 →
  diff_point d1 d2 (steps ++ more) a b → more = [].
Proof.
  intros Hn Hm Hd.
  assert (∀ pre (last : step) w1 w2,
            steps ++ more = pre ++ [last] →
            node_pair d1 d2 pre w1 w2 → kind_of w1 = kind_of w2 →
            kind_of w1 ≠ KScalar → more = []) as Hparent.
  { intros pre last w1 w2 E Hpre Hk Hs.
    destruct (decide (more = [])) as [|Hne]; [done|]. exfalso.
    destruct (exists_last Hne) as (more' & x & ->).
    rewrite app_assoc in E. apply app_inj_tail in E as [<- _].
    apply node_pair_split in Hpre as (u1 & u2 & Hu & Hbelow).
    destruct (node_pair_functional _ _ _ _ _ Hn _ _ Hu) as [-> ->].
    pose proof (mismatched_leaf _ _ _ _ _ Hm Hbelow) as ->.
    inversion Hbelow; subst.
    destruct Hm as [?|(? & _)]; done. }
  remember (steps ++ more) as st eqn:Est.
  destruct Hd as [s x y Hs Hxy|pre g1 g2 k x Hs G1 G2|pre g1 g2 k y Hs G1 G2
                 |pre l1 l2 i x Hs G1 G2|pre l1 l2 i y Hs G1 G2].
  - subst s. apply node_pair_split in Hs as (u1 & u2 & Hu & Hbelow).
    destruct (node_pair_functional _ _ _ _ _ Hn _ _ Hu) as [-> ->].
    by apply (mismatched_leaf v1 v2 more x y).
  - by apply (Hparent pre (Key k) (JObj g1) (JObj g2)).
  - by apply (Hparent pre (Key k) (JObj g1) (JObj g2)).
  - by apply (Hparent pre (Index i) (JArr l1) (JArr l2)).
  - by apply (Hparent pre (Index i) (JArr l1) (JArr l2)).
Qed.

(** C4, as the code has it: where the two documents have, at the end of the
    same access path, nodes of different kinds or two scalars that Python's
    [!=] tells apart, the call made for that pair performs exactly one
    assignment, at the StructuralPath of the node and holding the two whole
    sub-values, as a block of the run; the returned mapping has an entry at
    that path, and it is the entry with the two whole sub-values provided
    no assignment with other values goes to the same path string; and no
    entry of the returned mapping stems from below the mismatched pair. *)
Theorem find_differences_flat_entry (set_iter : list string → list string)
    (d1 d2 : json) (steps : list step) (v1 v2 : json) (path : string) :
  visits_each_once set_iter →
  node_pair d1 d2 steps v1 v2 →
  mismatched v1 v2 →
  find_differences set_iter v1 v2 (structural_path path steps) =
    [(structural_path path steps, (v1, v2))] ∧
  (∃ before after,
     find_differences set_iter d1 d2 path =
       before ++ [(structural_path path steps, (v1, v2))] ++ after) ∧
  structural_path "" steps ∈ dom (compare_json_structures set_iter d1 d2) ∧
  ((∀ e, (structural_path "" steps, e) ∈ find_differences set_iter d1 d2 "" →
         e = (v1, v2)) →
   compare_json_structures set_iter d1 d2 !! structural_path "" steps =
     Some (v1, v2)) ∧
  (∀ p a b,
     compare_json_structures set_iter d1 d2 !! p = Some (a, b) →
     ∃ steps', p = structural_path "" steps' ∧ diff_point d1 d2 steps' a b ∧
               ∀ more, steps' = steps ++ more → more = []).
Proof.
  intros Hiter Hnode Hmis.
  pose proof (find_differences_mismatched set_iter v1 v2
                (structural_path path steps) Hmis) as Hflat.
  assert ((structural_path "" steps, (v1, v2)) ∈
            find_differences set_iter d1 d2 "") as Hwritten.
  { apply (find_differences_complete set_iter Hiter). by apply diff_mismatch. }
  split_and!.
  - done.
  - destruct (node_pair_block set_iter Hiter d1 d2 steps v1 v2 Hnode path)
      as (before & after & ->).
    exists before, after. by rewrite Hflat.
  - by apply (write_in_dom set_iter d1 d2 _ (v1, v2)).
  - intros Honly.
    pose proof (write_in_dom set_iter d1 d2 _ _ Hwritten) as [e He]%elem_of_dom.
    rewrite He. f_equal. apply Honly.
    unfold compare_json_structures in He.
    apply assign_all_written in He as [?|He]; [done|by rewrite lookup_empty in He].
  - intros p a b H. unfold compare_json_structures in H.
    apply assign_all_written in H as [H|H]; [|by rewrite lookup_empty in H].
    apply find_differences_sound in H as (steps' & -> & Hd).
    exists steps'. split_and!; [done..|].
    intros more ->. by apply (no_divergence_below d1 d2 steps v1 v2 more a b).
Qed.

Lemma find_differences_flat_entry_witness :
  find_differences id (JObj [("y", JInt 1)]) (JArr [JInt 1])
      (structural_path "" [Key "x"]) =
    [(structural_path "" [Key "x"], (JObj [("y", JInt 1)], JArr [JInt 1]))] ∧
  (∃ before after,
     find_differences id (JObj [("x", JObj [("y", JInt 1)])])
         (JObj [("x", JArr [JInt 1])]) "" =
       before ++ [(structural_path "" [Key "x"],
                   (JObj [("y", JInt 1)], JArr [JInt 1]))] ++ after) ∧
  compare_json_structures id (JObj [("x", JObj [("y", JInt 1)])])
      (JObj [("x", JArr [JInt 1])]) !! structural_path "" [Key "x"] =
    Some (JObj [("y", JInt 1)], JArr [JInt 1]).
Proof.
  destruct (find_differences_flat_entry id
              (JObj [("x", JObj [("y", JInt 1)])]) (JObj [("x", JArr [JInt 1])])
              [Key "x"] (JObj [("y", JInt 1)]) (JArr [JInt 1]) "")
    as (Hcall & Hblock & _ & Hentry & _).
  - intros keys. reflexivity.
  - eapply node_pair_key; [reflexivity|reflexivity|constructor].
  - left. discriminate.
  - split_and!; [done..|]. apply Hentry.
    intros e He. vm_compute in He.
    by apply list_elem_of_singleton in He as [= <-].
Defined.

(** C4 as stated fails: the mismatched pair [1] against [[1]] under keys
    [a], [b] is assigned at path [a/b], and so is the pair under the key
    [a/b]; the assignment made last wins, and the returned mapping holds no
    entry with the two mismatched sub-values. *)
Lemma find_differences_flat_entry_counterexample :
  visits_each_once id ∧
  node_pair (JObj [("a", JObj [("b", JInt 1)]); ("a/b", JInt 2)])
            (JObj [("a", JObj [("b", JArr [JInt 1])]); ("a/b", JInt 3)])
            [Key "a"; Key "b"] (JInt 1) (JArr [JInt 1]) ∧
  mismatched (JInt 1) (JArr [JInt 1]) ∧
  compare_json_structures id
      (JObj [("a", JObj [("b", JInt 1)]); ("a/b", JInt 2)])
      (JObj [("a", JObj [("b", JArr [JInt 1])]); ("a/b", JInt 3)]) =
    {[ structural_path "" [Key "a"; Key "b"] := (JInt 2, JInt 3) ]}.
Proof.
  split; [by intros keys|]. split_and!.
  - eapply node_pair_key; [reflexivity..|].
    eapply node_pair_key; [reflexivity..|]. constructor.
  - left. discriminate.
  - reflexivity.
Qed.

Lemma marker_free_dict_get f k v :
  marker_free (JObj f) → dict_get k f = Some v → marker_free v.
Proof.
  unfold marker_free. simpl. intros Hf Hget%dict_get_Some.
  destruct (holds_marker v) eqn:Hv; [|done].
  rewrite <-Hf. symmetry. apply existsb_exists. exists (k, v).
  split; [by apply list_elem_of_In|done].
Qed.

Lemma marker_free_lookup (l : list json) (i : nat) v :
  marker_free (JArr l) → l !! i = Some v → marker_free v.
Proof.
  unfold marker_free. simpl. intros Hl Hget%list_elem_of_lookup_2.
  destruct (holds_marker v) eqn:Hv; [|done].
  rewrite <-Hl. symmetry. apply existsb_exists. exists v.
  split; [by apply list_elem_of_In|done].
Qed.

Lemma node_pair_marker_free d1 d2 steps a b :
  node_pair d1 d2 steps a b →
  marker_free d1 → marker_free d2 → marker_free a ∧ marker_free b.
Proof.
  induction 1 as [d1 d2|f1 f2 k c1 c2 steps v1 v2 H1 H2 _ IH
                 |l1 l2 i c1 c2 steps v1 v2 H1 H2 _ IH]; intros M1 M2.
  - done.
  - apply IH.
    + by apply (marker_free_dict_get f1 k).
    + by apply (marker_free_dict_get f2 k).
  - apply IH.
    + by apply (marker_free_lookup l1 i).
    + by apply (marker_free_lookup l2 i).
Qed.

(** In documents that hold neither marker string, a marker on one side of
    a point of divergence means that the key or the index is missing on
    that side. *)
Lemma diff_point_marker d1 d2 steps a b :
  marker_free d1 → marker_free d2 → diff_point d1 d2 steps a b →
  (b = KEY_NOT_FOUND → absent_key_in_second d1 d2 steps a) ∧
  (b = ELEMENT_NOT_FOUND → absent_index_in_second d1 d2 steps a) ∧
  (a = KEY_NOT_FOUND → absent_key_in_first d1 d2 steps b) ∧
  (a = ELEMENT_NOT_FOUND → absent_index_in_first d1 d2 steps b).
Proof.
  intros M1 M2 Hd.
  assert (∀ v, marker_free v → v ≠ KEY_NOT_FOUND ∧ v ≠ ELEMENT_NOT_FOUND) as Hfree.
  { intros v Hv. split; intros ->; discriminate Hv. }
  destruct Hd as [s x y Hs Hxy|pre g1 g2 k x Hs G1 G2|pre g1 g2 k y Hs G1 G2
                 |pre l1 l2 i x Hs G1 G2|pre l1 l2 i y Hs G1 G2].
  - destruct (node_pair_marker_free _ _ _ _ _ Hs M1 M2) as [Hx Hy].
    destruct (Hfree _ Hx), (Hfree _ Hy). by split_and!.
  - destruct (node_pair_marker_free _ _ _ _ _ Hs M1 M2) as [Hg1 _].
    destruct (Hfree _ (marker_free_dict_get _ _ _ Hg1 G1)).
    split_and!; [|done..]. intros _. by exists pre, g1, g2, k.
  - destruct (node_pair_marker_free _ _ _ _ _ Hs M1 M2) as [_ Hg2].
    destruct (Hfree _ (marker_free_dict_get _ _ _ Hg2 G2)).
    split_and!; [done..| |done]. intros _. by exists pre, g1, g2, k.
  - destruct (node_pair_marker_free _ _ _ _ _ Hs M1 M2) as [Hl1 _].
    destruct (Hfree _ (marker_free_lookup _ _ _ Hl1 G1)).
    split_and!; [done| |done..]. intros _. by exists pre, l1, l2, i.
  - destruct (node_pair_marker_free _ _ _ _ _ Hs M1 M2) as [_ Hl2].
    destruct (Hfree _ (marker_free_lookup _ _ _ Hl2 G2)).
    split_and!; [done..|]. intros _. by exists pre, l1, l2, i.
Qed.

(** C1, as the code has it: the marker of a missing side is the ordinary
    Python string "Key not found" (for keys) or "Element not found" (for
    indices).  For two documents that hold neither string as a value, every
    entry of the returned mapping that has the marker on one side stands for
    a key, or an index, that is missing on that side, at the access path
    the entry's path is built from.  In any documents, a key found in only
    one of two objects compared at a path, or an index found in only one of
    two arrays, is assigned an entry with the marker on the other side; and
    the marker equals a document value exactly when that value is the same
    string. *)
Theorem missing_side_marker (set_iter : list string → list string) :
  visits_each_once set_iter →
  (∀ d1 d2 p a b,
     marker_free d1 → marker_free d2 →
     compare_json_structures set_iter d1 d2 !! p = Some (a, b) →
     ∃ steps,
       p = structural_path "" steps ∧
       (b = JStr "Key not found" → absent_key_in_second d1 d2 steps a) ∧
       (b = JStr "Element not found" → absent_index_in_second d1 d2 steps a) ∧
       (a = JStr "Key not found" → absent_key_in_first d1 d2 steps b) ∧
       (a = JStr "Element not found" → absent_index_in_first d1 d2 steps b)) ∧
  (∀ f1 f2 path k v,
     dict_get k f1 = Some v → dict_get k f2 = None →
     (key_path path k, (v, JStr "Key not found")) ∈
       find_differences set_iter (JObj f1) (JObj f2) path) ∧
  (∀ f1 f2 path k v,
     dict_get k f1 = None → dict_get k f2 = Some v →
     (key_path path k, (JStr "Key not found", v)) ∈
       find_differences set_iter (JObj f1) (JObj f2) path) ∧
  (∀ l1 l2 path i v,
     l1 !! i = Some v → l2 !! i = None →
     (index_path path i, (v, JStr "Element not found")) ∈
       find_differences set_iter (JArr l1) (JArr l2) path) ∧
  (∀ l1 l2 path i v,
     l1 !! i = None → l2 !! i = Some v →
     (index_path path i, (JStr "Element not found", v)) ∈
       find_differences set_iter (JArr l1) (JArr l2) path) ∧
  (∀ s v, py_eq (JStr s) v = true ↔ v = JStr s).
Proof.
  intros Hiter. split_and!.
  - intros d1 d2 p a b M1 M2 H. unfold compare_json_structures in H.
    apply assign_all_written in H as [H|H]; [|by rewrite lookup_empty in H].
    apply find_differences_sound in H as (steps & -> & Hd).
    exists steps. split; [done|]. by apply diff_point_marker.
  - intros f1 f2 path k v. by apply key_only_left.
  - intros f1 f2 path k v. by apply key_only_right.
  - intros l1 l2 path i v. by apply index_only_left.
  - intros l1 l2 path i v. by apply index_only_right.
  - intros s v. destruct v; simpl; try (split; [done|discriminate]).
    rewrite bool_decide_eq_true. split; [by intros ->|by intros [= ->]].
Qed.

Lemma missing_side_marker_witness :
  (∃ steps,
     "l[1]" = structural_path "" steps ∧
     absent_index_in_second
       (JObj [("a", JInt 1); ("l", JArr [JInt 1; JInt 2])])
       (JObj [("a", JInt 1); ("l", JArr [JInt 1])]) steps (JInt 2)) ∧
  ("a", (JInt 1, JStr "Key not found")) ∈
    find_differences id (JObj [("a", JInt 1)]) (JObj []) "" ∧
  ("[2]", (JInt 3, JStr "Element not found")) ∈
    find_differences id (JArr [JInt 1; JInt 2; JInt 3]) (JArr [JInt 1; JInt 2]) "".
Proof.
  destruct (missing_side_marker id) as (Hback & Hleft & _ & Hlonger & _).
  { intros keys. reflexivity. }
  split_and!.
  - destruct (Hback (JObj [("a", JInt 1); ("l", JArr [JInt 1; JInt 2])])
                    (JObj [("a", JInt 1); ("l", JArr [JInt 1])])
                    "l[1]" (JInt 2) (JStr "Element not found"))
      as (steps & Hp & _ & Habsent & _); [reflexivity..|].
    exists steps. split; [done|]. by apply Habsent.
  - apply (Hleft [("a", JInt 1)] [] "" "a" (JInt 1)); reflexivity.
  - apply (Hlonger [JInt 1; JInt 2; JInt 3] [JInt 1; JInt 2] "" 2%nat (JInt 3));
      reflexivity.
Defined.
